(** * Action-item extraction: a shallow embedding of [week2/app]

    The development follows the three layers of the application:
    - [services/extract.py]: the heuristic extractor and the model-backed
      extractor;
    - [db.py]: the [action_items] table and its operations;
    - [routers/action_items.py]: the endpoints built on both.

    Python strings are sequences of Unicode code points: a string is a
    [list N].  Sets are [gset], tables are [gmap]s keyed by row id. *)

From Stdlib Require Import ZArith NArith List Ascii String Bool Lia DecimalString.
From stdpp Require Import base decidable list sorting gmap.

Local Open Scope N_scope.

(** ** Strings *)

Abbreviation char := N (only parsing).
Abbreviation str := (list N) (only parsing).

(** A literal of the development as a Python string (one code point per
    character of the literal; the literals used are ASCII). *)
Definition u (s : string) : str :=
  map N_of_ascii (list_ascii_of_string s).

Definition LF : char := 0x0A.
Definition CR : char := 0x0D.

Definition in_range (lo hi c : char) : bool := (lo <=? c) && (c <=? hi).

Definition one_of (cs : str) (c : char) : bool := existsb (N.eqb c) cs.

(** [str.isspace] on one character, which is also the class [\s] of [re]
    on [str] patterns. *)
Definition isspace (c : char) : bool :=
  in_range 0x09 0x0D c || in_range 0x1C 0x20 c
  || one_of [0x85; 0xA0; 0x1680] c || in_range 0x2000 0x200A c
  || one_of [0x2028; 0x2029; 0x202F; 0x205F; 0x3000] c.

(** The line boundaries of [str.splitlines] (CR LF counts once). *)
Definition is_linebreak (c : char) : bool :=
  in_range 0x0A 0x0D c || in_range 0x1C 0x1E c
  || one_of [0x85; 0x2028; 0x2029] c.

Fixpoint lstrip (s : str) : str :=
  match s with
  | c :: s' => if isspace c then lstrip s' else s
  | [] => []
  end.

Definition rstrip (s : str) : str := rev (lstrip (rev s)).

(** [s.strip()] *)
Definition strip (s : str) : str := rstrip (lstrip s).

(** [not s] for a string *)
Definition is_empty {A} (l : list A) : bool :=
  match l with [] => true | _ => false end.

(** [s.splitlines()]: [cur] is the line being read, in reverse. *)
Fixpoint splitlines_from (cur : str) (s : str) : list str :=
  match s with
  | [] => if is_empty cur then [] else [rev cur]
  | c :: s' =>
      if c =? CR then
        match s' with
        | c' :: s'' =>
            if c' =? LF then rev cur :: splitlines_from [] s''
            else rev cur :: splitlines_from [] s'
        | [] => rev cur :: splitlines_from [] s'
        end
      else if is_linebreak c then rev cur :: splitlines_from [] s'
      else splitlines_from (c :: cur) s'
  end.

Definition splitlines (s : str) : list str := splitlines_from [] s.

(** [s.startswith(p)] *)
Fixpoint startswith (s p : str) {struct p} : bool :=
  match p, s with
  | [], _ => true
  | a :: p', b :: s' => (a =? b) && startswith s' p'
  | _ :: _, [] => false
  end.

(** [needle in s] *)
Fixpoint contains (needle s : str) : bool :=
  startswith s needle
  || match s with
     | [] => false
     | _ :: s' => contains needle s'
     end.

(** [s.removeprefix(p)] *)
Definition removeprefix (s p : str) : str :=
  if startswith s p then drop (length p) s else s.

(** ** The part of the Unicode database the source relies on

    [str.lower] and the class [\d] are tables of the runtime; the
    extractor is defined over any such tables, and [latin1_tables] gives
    them for the code points up to U+00FF, where every literal of the
    examples lives. *)

Class UnicodeTables := {
  str_lower : str -> str;      (* [s.lower()] *)
  isdecimal : char -> bool     (* [\d] *)
}.

Definition lower_char (c : char) : char :=
  if in_range 0x41 0x5A c
     || (in_range 0xC0 0xDE c && negb (c =? 0xD7))
  then c + 32 else c.

Definition latin1_tables : UnicodeTables :=
  {| str_lower := map lower_char;
     isdecimal := in_range 0x30 0x39 |}.

(** ** Regular expressions

    The fragment of [re] used by the source, with the backtracking
    semantics of the engine: alternatives are tried left to right,
    repetitions are greedy and give characters back on failure.  The
    matcher carries the character before the current position ([None] at
    the start of the string), which is what [^] and a one-character
    look-behind inspect. *)

Inductive regex :=
| RClass (p : char -> bool)
| RSeq (r1 r2 : regex)
| RAlt (r1 r2 : regex)
| RStar (p : char -> bool)
| RPlus (p : char -> bool)
| RBol
| RLookbehind (p : char -> bool).

Section Matcher.
Context {A : Type}.

Fixpoint star_k (p : char -> bool) (k : option char -> str -> option A)
    (prev : option char) (s : str) : option A :=
  match s with
  | c :: s' =>
      if p c then
        match star_k p k (Some c) s' with
        | Some a => Some a
        | None => k prev s
        end
      else k prev s
  | [] => k prev []
  end.

Fixpoint rmatch (r : regex) (prev : option char) (s : str)
    (k : option char -> str -> option A) : option A :=
  match r with
  | RClass p =>
      match s with
      | c :: s' => if p c then k (Some c) s' else None
      | [] => None
      end
  | RSeq r1 r2 => rmatch r1 prev s (fun prev' s' => rmatch r2 prev' s' k)
  | RAlt r1 r2 =>
      match rmatch r1 prev s k with
      | Some a => Some a
      | None => rmatch r2 prev s k
      end
  | RStar p => star_k p k prev s
  | RPlus p =>
      match s with
      | c :: s' => if p c then star_k p k (Some c) s' else None
      | [] => None
      end
  | RBol => match prev with None => k prev s | Some _ => None end
  | RLookbehind p =>
      match prev with
      | Some c => if p c then k prev s else None
      | None => None
      end
  end.
End Matcher.

(** A match of [r] at the current position: what is left of the string
    after it. *)
Definition match_here (r : regex) (prev : option char) (s : str)
  : option str :=
  rmatch r prev s (fun _ rest => Some rest).

(** [pattern.match(s)], as a truth value *)
Definition re_match (r : regex) (s : str) : bool :=
  match match_here r None s with Some _ => true | None => false end.

(** The scan shared by [sub], [split] and [findall]: the string cut into
    the text between matches and the matches, leftmost match first, the
    search resuming where a match ended.  [skip] counts the characters of
    the current match still to pass, [cur] is the text read since the last
    match, in reverse.  The patterns of the source match no empty string;
    an empty match is passed over. *)
Inductive segment := Text (t : str) | Hit (h : str).

Fixpoint segments (r : regex) (skip : nat) (prev : option char)
    (cur : str) (s : str) : list segment :=
  match s with
  | [] => [Text (rev cur)]
  | c :: s' =>
      match skip with
      | S n => segments r n (Some c) cur s'
      | O =>
          match match_here r prev s with
          | Some rest =>
              match (length s - length rest)%nat with
              | S n =>
                  Text (rev cur) :: Hit (take (S n) s)
                    :: segments r n (Some c) [] s'
              | O => segments r 0 (Some c) (c :: cur) s'
              end
          | None => segments r 0 (Some c) (c :: cur) s'
          end
      end
  end.

(** [pattern.sub(repl, s)] *)
Definition re_sub (r : regex) (repl : str) (s : str) : str :=
  concat (map (fun g => match g with Text t => t | Hit _ => repl end)
              (segments r 0 None [] s)).

(** The texts between the matches, and the matches. *)
Definition texts (l : list segment) : list str :=
  omap (fun g => match g with Text t => Some t | Hit _ => None end) l.

Definition hits (l : list segment) : list str :=
  omap (fun g => match g with Hit h => Some h | Text _ => None end) l.

(** [re.split(pattern, s)] for a pattern without capturing groups *)
Definition re_split (r : regex) (s : str) : list str :=
  texts (segments r 0 None [] s).

(** [re.findall(pattern, s)] for a pattern without capturing groups *)
Definition re_findall (r : regex) (s : str) : list str :=
  hits (segments r 0 None [] s).

(** ** [services/extract.py]: the heuristic extractor *)

Section Heuristic.
Context {tables : UnicodeTables}.

(** [^\s*([-*•]|\d+\.)\s+]; the bullet [•] is U+2022. *)
Definition BULLET_PREFIX_PATTERN : regex :=
  RSeq RBol
    (RSeq (RStar isspace)
       (RSeq (RAlt (RClass (one_of [0x2D; 0x2A; 0x2022]))
                   (RSeq (RPlus isdecimal) (RClass (N.eqb 0x2E))))
             (RPlus isspace))).

Definition KEYWORD_PREFIXES : list str :=
  [u "todo:"; u "action:"; u "next:"].

Definition _is_action_line (line : str) : bool :=
  let stripped := str_lower (strip line) in
  if is_empty stripped then false
  else if re_match BULLET_PREFIX_PATTERN stripped then true
  else if existsb (startswith stripped) KEYWORD_PREFIXES then true
  else if contains (u "[ ]") stripped || contains (u "[todo]") stripped
  then true
  else false.

(** The class [[A-Za-z']] *)
Definition is_word_char (c : char) : bool :=
  in_range 0x41 0x5A c || in_range 0x61 0x7A c || (c =? 0x27).

(** [[A-Za-z']+] *)
Definition WORD_PATTERN : regex := RPlus is_word_char.

Definition imperative_starters : gset str :=
  list_to_set
    [u "add"; u "create"; u "implement"; u "fix"; u "update"; u "write";
     u "check"; u "verify"; u "refactor"; u "document"; u "design";
     u "investigate"].

Definition _looks_imperative (sentence : str) : bool :=
  let words := re_findall WORD_PATTERN sentence in
  match words with
  | [] => false
  | first :: _ => bool_decide (str_lower first ∈ imperative_starters)
  end.

(** The body of the loop over the lines. *)
Definition line_pass_step (extracted : list str) (raw_line : str)
  : list str :=
  let line := strip raw_line in
  if is_empty line then extracted
  else if _is_action_line line then
    let cleaned := re_sub BULLET_PREFIX_PATTERN [] line in
    let cleaned := strip cleaned in
    let cleaned := strip (removeprefix cleaned (u "[ ]")) in
    let cleaned := strip (removeprefix cleaned (u "[todo]")) in
    extracted ++ [cleaned]
  else extracted.

(** The class [[.!?]] *)
Definition is_terminator : char -> bool := one_of [0x2E; 0x21; 0x3F].

(** [(?<=[.!?])\s+] *)
Definition SENTENCE_BOUNDARY : regex :=
  RSeq (RLookbehind is_terminator) (RPlus isspace).

(** The body of the loop over the sentences of the fallback. *)
Definition sentence_pass_step (extracted : list str) (sentence : str)
  : list str :=
  let s := strip sentence in
  if is_empty s then extracted
  else if _looks_imperative s then extracted ++ [s]
  else extracted.

(** The body of the deduplication loop, on the pair [(seen, unique)]. *)
Definition dedup_step (st : gset str * list str) (item : str)
  : gset str * list str :=
  let '(seen, unique) := st in
  let lowered := str_lower item in
  if bool_decide (lowered ∈ seen) then st
  else ({[lowered]} ∪ seen, unique ++ [item]).

(** The value of [extracted] when the two passes are over. *)
Definition extracted_items (text : str) : list str :=
  let lines := splitlines text in
  let extracted := foldl line_pass_step [] lines in
  if is_empty extracted then
    let sentences := re_split SENTENCE_BOUNDARY (strip text) in
    foldl sentence_pass_step extracted sentences
  else extracted.

Definition extract_action_items (text : str) : list str :=
  let extracted := extracted_items text in
  let '(seen, unique) := foldl dedup_step (∅, []) extracted in
  unique.
End Heuristic.

(** ** Python values and exceptions

    The values [json.loads] can return.  A float is kept as the number its
    literal denotes, [digits * 10 ^ exp10]; the binary64 value is the
    correct rounding of it.  A [dict] is the list of its items in
    insertion order, keys distinct. *)

Inductive float_value :=
| FNan
| FInf (negative : bool)
| FDec (negative : bool) (digits : N) (exp10 : Z).

#[warnings="-register-all"]
Inductive pyval :=
| PyNone
| PyBool (b : bool)
| PyInt (z : Z)
| PyFloat (f : float_value)
| PyStr (s : str)
| PyList (l : list pyval)
| PyDict (d : list (str * pyval)).

(** A decimal rounds to [0.0] (to nearest, ties to even) exactly when it
    is at most [2 ^ -1075], half of the smallest subnormal. *)
Definition float_is_zero (f : float_value) : bool :=
  match f with
  | FNan | FInf _ => false
  | FDec _ m e =>
      (m =? 0)
      || ((e <? 0)%Z && (Z.of_N m * 2 ^ 1075 <=? 10 ^ (- e))%Z)
  end.

(** [bool(v)], the test of [if item] and of [or]. *)
Definition truthy (v : pyval) : bool :=
  match v with
  | PyNone => false
  | PyBool b => b
  | PyInt z => negb (z =? 0)%Z
  | PyFloat f => negb (float_is_zero f)
  | PyStr s => negb (is_empty s)
  | PyList l => negb (is_empty l)
  | PyDict d => negb (is_empty d)
  end.

(** [a or b] *)
Definition py_or (a b : pyval) : pyval := if truthy a then a else b.

(** [d.get(key)] *)
Fixpoint dict_get (d : list (str * pyval)) (key : str) : pyval :=
  match d with
  | [] => PyNone
  | (k, v) :: d' => if bool_decide (k = key) then v else dict_get d' key
  end.

(** [type(v).__name__] *)
Definition type_name (v : pyval) : str :=
  match v with
  | PyNone => u "NoneType"
  | PyBool _ => u "bool"
  | PyInt _ => u "int"
  | PyFloat _ => u "float"
  | PyStr _ => u "str"
  | PyList _ => u "list"
  | PyDict _ => u "dict"
  end.

(** Exceptions are instances of [Exception], as every error of the
    interpreter and of the libraries is; the handlers of the source tell
    [json.JSONDecodeError] from the rest.  An exception carries its
    class and the text [str(e)]. *)
Inductive exn_class :=
| JSONDecodeError
| TypeError
| AttributeError
| RecursionError
| OtherError (name : str).

Record exn := mk_exn { exn_cls : exn_class; exn_msg : str }.

Inductive outcome (A : Type) :=
| Returns (a : A)
| Raises (e : exn).
Arguments Returns {A} a.
Arguments Raises {A} e.

#[global] Instance outcome_ret : MRet outcome := @Returns.

#[global] Instance outcome_bind : MBind outcome := fun A B f m =>
  match m with
  | Returns a => f a
  | Raises e => Raises e
  end.

Definition squote : char := 0x27.
Definition dquote : char := 0x22.

(** [for item in v]: the items [v] yields, or the [TypeError] of a value
    that is not iterable. *)
Definition py_iter (v : pyval) : outcome (list pyval) :=
  match v with
  | PyList l => Returns l
  | PyStr s => Returns (map (fun c => PyStr [c]) s)
  | PyDict d => Returns (map (fun kv => PyStr kv.1) d)
  | _ =>
      Raises (mk_exn TypeError
                ([squote] ++ type_name v ++ [squote]
                   ++ u " object is not iterable"))
  end.

(** [sep.join(l)] *)
Fixpoint str_join (sep : str) (l : list str) : str :=
  match l with
  | [] => []
  | [x] => x
  | x :: l' => x ++ sep ++ str_join sep l'
  end.

(** [str(z)] for an integer *)
Definition decimal (z : Z) : str :=
  u (NilZero.string_of_int (Z.to_int z)).

(** ** The collaborators of the model-backed extractor *)

(** The keyword arguments of the call of [chat]. *)
Record chat_request := {
  req_model : str;
  req_messages : list (str * str);     (* role, content *)
  req_format : str;
  req_temperature : float_value
}.

(** What lies outside the repository: the completion service, the JSON
    decoder and the two [repr]s whose text depends on the runtime.
    [chat] yields [response.message.content], which the client types as
    an optional string, or raises. *)
Class Runtime := {
  chat : chat_request -> outcome (option str);
  json_loads : str -> outcome pyval;
  float_repr : float_value -> str;
  str_repr : str -> str
}.

Section ModelExtractor.
Context {rt : Runtime}.

(** [repr(v)] *)
Fixpoint py_repr (v : pyval) : str :=
  match v with
  | PyNone => u "None"
  | PyBool true => u "True"
  | PyBool false => u "False"
  | PyInt z => decimal z
  | PyFloat f => float_repr f
  | PyStr s => str_repr s
  | PyList l => u "[" ++ str_join (u ", ") (map py_repr l) ++ u "]"
  | PyDict d =>
      u "{"
        ++ str_join (u ", ")
             (map (fun kv =>
                     match kv with
                     | (k, x) => str_repr k ++ u ": " ++ py_repr x
                     end) d)
        ++ u "}"
  end.

(** [str(v)] *)
Definition py_str (v : pyval) : str :=
  match v with
  | PyStr s => s
  | _ => py_repr v
  end.

Definition system_prompt : str :=
  str_join [LF]
    [u "You are an action item extractor. Given a text containing notes,";
     u "extract all actionable tasks and return them as a JSON array of strings.";
     [];
     u "Rules:";
     u "- Extract clear, actionable items (tasks that someone needs to do)";
     u "- Remove bullet points, checkboxes, and prefixes like "
       ++ [dquote] ++ u "TODO:" ++ [dquote] ++ u ", "
       ++ [dquote] ++ u "Action:" ++ [dquote] ++ u ", etc.";
     u "- Keep each action item concise but complete";
     u "- If no action items are found, return an empty array []";
     u "- Return ONLY the JSON array, no other text"].

Definition user_prompt (text : str) : str :=
  str_join [LF]
    [u "Extract action items from the following text:";
     [];
     text;
     [];
     u "Return a JSON array of action item strings."].

Definition llm_request (text model : str) : chat_request :=
  {| req_model := model;
     req_messages :=
       [(u "system", system_prompt); (u "user", user_prompt text)];
     req_format := u "json";
     req_temperature := FDec false 1 (-1) |}.

(** [response.message.content.strip()] *)
Definition content_strip (content : option str) : outcome str :=
  match content with
  | Some s => Returns (strip s)
  | None =>
      Raises (mk_exn AttributeError
                (u "'NoneType' object has no attribute 'strip'"))
  end.

(** [[str(item) for item in items if item]] *)
Definition str_items (items : pyval) : outcome (list str) :=
  l ← py_iter items;
  Returns (map py_str (filter (fun item => truthy item = true) l)).

(** The value of [items] in the [dict] branch. *)
Definition dict_items (result : list (str * pyval)) : pyval :=
  py_or (dict_get result (u "action_items"))
    (py_or (dict_get result (u "actionItems"))
       (py_or (dict_get result (u "items"))
          (py_or (dict_get result (u "actions"))
             (py_or (dict_get result (u "tasks"))
                (PyList []))))).

(** The normalisation of the parsed response. *)
Definition normalise (result : pyval) : outcome (list str) :=
  match result with
  | PyList _ => str_items result
  | PyDict d => str_items (dict_items d)
  | _ => Returns []
  end.

(** The body of the [try] block. *)
Definition llm_try (text model : str) : outcome (list str) :=
  response ← chat (llm_request text model);
  content ← content_strip response;
  result ← json_loads content;
  normalise result.

(** One run of the extractor: what it hands to its caller, the lines it
    printed and the calls it made to the completion service. *)
Record llm_run := {
  run_result : outcome (list str);
  run_printed : list str;
  run_calls : list chat_request
}.

Definition extract_action_items_llm (text model : str) : llm_run :=
  if is_empty text || is_empty (strip text) then
    {| run_result := Returns []; run_printed := []; run_calls := [] |}
  else
    let calls := [llm_request text model] in
    match llm_try text model with
    | Returns items =>
        {| run_result := Returns items; run_printed := [];
           run_calls := calls |}
    | Raises e =>
        match exn_cls e with
        | JSONDecodeError =>
            {| run_result := Returns []; run_printed := [];
               run_calls := calls |}
        | _ =>
            {| run_result := Returns [];
               run_printed :=
                 [u "Error in extract_action_items_llm: " ++ exn_msg e];
               run_calls := calls |}
        end
    end.
End ModelExtractor.

(** ** The JSON decoder

    [json.loads] on a [str], as the decoder of the standard library
    reads it: the grammar, the escapes of a string with the joining of a
    surrogate pair, the constants [NaN], [Infinity] and [-Infinity], and
    [dict(pairs)] for an object.  The limits of an interpreter (depth of
    recursion, digits of an integer literal) are not part of it; the fuel
    is larger than the length of the text, and running out of it is
    reported apart from a syntax error. *)

Inductive scan_result :=
| Scanned (v : pyval) (rest : str)
| Invalid (msg : str)
| Exhausted.

Definition json_ws : char -> bool := one_of [0x20; 0x09; 0x0A; 0x0D].

Fixpoint skip_ws (s : str) : str :=
  match s with
  | c :: s' => if json_ws c then skip_ws s' else s
  | [] => []
  end.

Definition is_digit : char -> bool := in_range 0x30 0x39.

Definition hex_value (c : char) : option N :=
  if is_digit c then Some (c - 0x30)
  else if in_range 0x61 0x66 c then Some (c - 0x61 + 10)
  else if in_range 0x41 0x46 c then Some (c - 0x41 + 10)
  else None.

Definition hex4 (a b c d : char) : option N :=
  x ← hex_value a; y ← hex_value b; z ← hex_value c; w ← hex_value d;
  Some (((x * 16 + y) * 16 + z) * 16 + w).

Definition backslash : char := 0x5C.

(** The one-character escapes. *)
Definition escape_char (e : char) : option char :=
  if e =? dquote then Some dquote
  else if e =? backslash then Some backslash
  else if e =? 0x2F then Some 0x2F
  else if e =? 0x62 then Some 0x08
  else if e =? 0x66 then Some 0x0C
  else if e =? 0x6E then Some 0x0A
  else if e =? 0x72 then Some 0x0D
  else if e =? 0x74 then Some 0x09
  else None.

Definition join_surrogates (hi lo : N) : N :=
  0x10000 + N.lor (N.shiftl (hi - 0xD800) 10) (lo - 0xDC00).

(** The text of a string, after its opening quote: the decoded string and
    what follows the closing quote. *)
Fixpoint scanstring (acc : str) (s : str) : option (str * str) :=
  match s with
  | [] => None
  | c :: s1 =>
      if c =? dquote then Some (rev acc, s1)
      else if c =? backslash then
        match s1 with
        | [] => None
        | e :: s2 =>
            if e =? 0x75 then
              match s2 with
              | h1 :: h2 :: h3 :: h4 :: s3 =>
                  match hex4 h1 h2 h3 h4 with
                  | None => None
                  | Some uni =>
                      if in_range 0xD800 0xDBFF uni then
                        match s3 with
                        | b :: e' :: k1 :: k2 :: k3 :: k4 :: s4 =>
                            if (b =? backslash) && (e' =? 0x75) then
                              match hex4 k1 k2 k3 k4 with
                              | None => None
                              | Some uni2 =>
                                  if in_range 0xDC00 0xDFFF uni2 then
                                    scanstring
                                      (join_surrogates uni uni2 :: acc) s4
                                  else scanstring (uni :: acc) s3
                              end
                            else scanstring (uni :: acc) s3
                        | _ => scanstring (uni :: acc) s3
                        end
                      else scanstring (uni :: acc) s3
                  end
              | _ => None
              end
            else
              match escape_char e with
              | Some x => scanstring (x :: acc) s2
              | None => None
              end
        end
      else if c <? 0x20 then None
      else scanstring (c :: acc) s1
  end.

Fixpoint take_digits (s : str) : str * str :=
  match s with
  | c :: s' =>
      if is_digit c then
        let '(ds, rest) := take_digits s' in (c :: ds, rest)
      else ([], s)
  | [] => ([], [])
  end.

Definition digits_value (ds : str) : N :=
  foldl (fun a d => a * 10 + (d - 0x30)) 0 ds.

Definition signed (negative : bool) (n : N) : Z :=
  if negative then (- Z.of_N n)%Z else Z.of_N n.

(** A number at the start of [s]: an optional minus sign, then [0] or a
    digit from 1 to 9 followed by digits; optionally a point and one digit
    or more; optionally [e] or [E], an optional sign and one digit or more.
    It is an [int] without fraction and exponent, a [float] otherwise. *)
Definition scan_number (s : str) : option (pyval * str) :=
  let '(negative, s1) :=
    match s with
    | c :: s' => if c =? 0x2D then (true, s') else (false, s)
    | [] => (false, s)
    end in
  match s1 with
  | [] => None
  | d :: s2 =>
      let integer :=
        if d =? 0x30 then Some ([d], s2)
        else if in_range 0x31 0x39 d then
          let '(ds, r) := take_digits s2 in Some (d :: ds, r)
        else None in
      match integer with
      | None => None
      | Some (ipart, r) =>
          let '(frac, r1) :=
            match r with
            | c :: r' =>
                if c =? 0x2E then
                  let '(fs, r'') := take_digits r' in
                  if is_empty fs then ([], r) else (fs, r'')
                else ([], r)
            | [] => ([], r)
            end in
          let '(exponent, r2) :=
            match r1 with
            | c :: r' =>
                if (c =? 0x65) || (c =? 0x45) then
                  let '(eneg, r'') :=
                    match r' with
                    | g :: t =>
                        if g =? 0x2D then (true, t)
                        else if g =? 0x2B then (false, t)
                        else (false, r')
                    | [] => (false, r')
                    end in
                  let '(es, r''') := take_digits r'' in
                  if is_empty es then (None, r1)
                  else (Some (signed eneg (digits_value es)), r''')
                else (None, r1)
            | [] => (None, r1)
            end in
          match frac, exponent with
          | [], None => Some (PyInt (signed negative (digits_value ipart)), r2)
          | _, _ =>
              Some (PyFloat
                      (FDec negative (digits_value (ipart ++ frac))
                         (default 0%Z exponent - Z.of_nat (length frac))),
                    r2)
          end
      end
  end.

(** [dict(pairs)]: a later pair of the same key replaces the value and
    keeps the place of the first. *)
Fixpoint dict_set (d : list (str * pyval)) (key : str) (v : pyval)
  : list (str * pyval) :=
  match d with
  | [] => [(key, v)]
  | (k, x) :: d' =>
      if bool_decide (k = key) then (key, v) :: d'
      else (k, x) :: dict_set d' key v
  end.

Definition dict_of_pairs (pairs : list (str * pyval)) : list (str * pyval) :=
  foldl (fun d kv => dict_set d kv.1 kv.2) [] pairs.

Section Containers.
Variable scan : str -> scan_result.

(** The elements of an array, from its first value on. *)
Fixpoint array_values (n : nat) (values : list pyval) (s : str)
  : scan_result :=
  match n with
  | O => Exhausted
  | S n =>
      match scan s with
      | Scanned v s1 =>
          match skip_ws s1 with
          | c :: s2 =>
              if c =? 0x5D then Scanned (PyList (values ++ [v])) s2
              else if c =? 0x2C then
                array_values n (values ++ [v]) (skip_ws s2)
              else Invalid (u "Expecting ',' delimiter")
          | [] => Invalid (u "Expecting ',' delimiter")
          end
      | other => other
      end
  end.

Definition JSONArray (s : str) : scan_result :=
  match skip_ws s with
  | c :: s1 =>
      if c =? 0x5D then Scanned (PyList []) s1
      else array_values (S (length s)) [] (skip_ws s)
  | [] => Invalid (u "Expecting value")
  end.

(** The pairs of an object, from after the opening quote of a key on. *)
Fixpoint object_pairs (n : nat) (pairs : list (str * pyval)) (s : str)
  : scan_result :=
  match n with
  | O => Exhausted
  | S n =>
      match scanstring [] s with
      | None => Invalid (u "Invalid string")
      | Some (key, s1) =>
          match skip_ws s1 with
          | c :: s2 =>
              if c =? 0x3A then
                match scan (skip_ws s2) with
                | Scanned v s3 =>
                    let pairs := pairs ++ [(key, v)] in
                    match skip_ws s3 with
                    | c' :: s4 =>
                        if c' =? 0x7D then
                          Scanned (PyDict (dict_of_pairs pairs)) s4
                        else if c' =? 0x2C then
                          match skip_ws s4 with
                          | q :: s5 =>
                              if q =? dquote then object_pairs n pairs s5
                              else
                                Invalid
                                  (u "Expecting property name enclosed in double quotes")
                          | [] =>
                              Invalid
                                (u "Expecting property name enclosed in double quotes")
                          end
                        else Invalid (u "Expecting ',' delimiter")
                    | [] => Invalid (u "Expecting ',' delimiter")
                    end
                | other => other
                end
              else Invalid (u "Expecting ':' delimiter")
          | [] => Invalid (u "Expecting ':' delimiter")
          end
      end
  end.

Definition JSONObject (s : str) : scan_result :=
  match skip_ws s with
  | c :: s1 =>
      if c =? dquote then object_pairs (S (length s)) [] s1
      else if c =? 0x7D then Scanned (PyDict []) s1
      else Invalid (u "Expecting property name enclosed in double quotes")
  | [] => Invalid (u "Expecting property name enclosed in double quotes")
  end.
End Containers.

Fixpoint scan_once (fuel : nat) (s : str) : scan_result :=
  match fuel with
  | O => Exhausted
  | S fuel =>
      match s with
      | [] => Invalid (u "Expecting value")
      | c :: s' =>
          if c =? dquote then
            match scanstring [] s' with
            | Some (t, rest) => Scanned (PyStr t) rest
            | None => Invalid (u "Invalid string")
            end
          else if c =? 0x7B then JSONObject (scan_once fuel) s'
          else if c =? 0x5B then JSONArray (scan_once fuel) s'
          else if startswith s (u "null") then Scanned PyNone (drop 4 s)
          else if startswith s (u "true") then
            Scanned (PyBool true) (drop 4 s)
          else if startswith s (u "false") then
            Scanned (PyBool false) (drop 5 s)
          else
            match scan_number s with
            | Some (v, rest) => Scanned v rest
            | None =>
                if startswith s (u "NaN") then
                  Scanned (PyFloat FNan) (drop 3 s)
                else if startswith s (u "Infinity") then
                  Scanned (PyFloat (FInf false)) (drop 8 s)
                else if startswith s (u "-Infinity") then
                  Scanned (PyFloat (FInf true)) (drop 9 s)
                else Invalid (u "Expecting value")
            end
      end
  end.

(** [json.loads(s)] *)
Definition json_decode (s : str) : outcome pyval :=
  if startswith s [0xFEFF] then
    Raises (mk_exn JSONDecodeError
              (u "Unexpected UTF-8 BOM (decode using utf-8-sig)"))
  else
    match scan_once (S (length s)) (skip_ws s) with
    | Scanned v rest =>
        if is_empty (skip_ws rest) then Returns v
        else Raises (mk_exn JSONDecodeError (u "Extra data"))
    | Invalid msg => Raises (mk_exn JSONDecodeError msg)
    | Exhausted =>
        Raises (mk_exn RecursionError
                  (u "maximum recursion depth exceeded"))
    end.

(** ** [db.py]: the storage

    A table with an [INTEGER PRIMARY KEY AUTOINCREMENT] is a finite map
    from row ids to rows, together with the largest id the table ever
    gave out.  [now] is the reading of [datetime('now')] at the insertion
    of the row of a given id.  Ids are integers: the 64-bit range of the
    row ids of the engine, out of reach of a run, is not modelled.  The
    connection never turns foreign keys on, so [note_id] is not checked. *)

Record note_row := {
  note_content : str;
  note_created_at : str
}.

Record action_item_row := {
  item_note_id : option Z;
  item_text : str;
  item_done : Z;
  item_created_at : str
}.

Record database := {
  notes : gmap Z note_row;
  notes_seq : Z;
  action_items : gmap Z action_item_row;
  action_items_seq : Z
}.

Local Open Scope Z_scope.

Definition max_rowid {A} (table : gmap Z A) : Z :=
  foldr (fun kv acc => Z.max kv.1 acc) 0 (map_to_list table).

(** The id [AUTOINCREMENT] gives to a new row: one more than the largest
    id the table has or ever had. *)
Definition next_rowid {A} (table : gmap Z A) (seq : Z) : Z :=
  Z.max seq (max_rowid table) + 1.

(** [ORDER BY id DESC]: the rows of a table with their ids, the largest
    id first. *)
Definition id_desc {A} : relation (Z * A) := fun a b => b.1 <= a.1.

#[global] Instance id_desc_dec {A} : RelDecision (@id_desc A) :=
  fun a b => decide (b.1 <= a.1).

Definition rows_desc {A} (table : gmap Z A) : list (Z * A) :=
  merge_sort id_desc (map_to_list table).

(** What the file of the database holds when the application starts: each
    table, with its sequence, if it was ever created. *)
Record db_file := {
  file_notes : option (gmap Z note_row * Z);
  file_action_items : option (gmap Z action_item_row * Z)
}.

Module db.
Section Operations.
Variable now : Z -> str.

(** [INSERT INTO notes (content) VALUES (?)] and [cursor.lastrowid] *)
Definition insert_note (content : str) (d : database) : Z * database :=
  let rowid := next_rowid (notes d) (notes_seq d) in
  (rowid,
   {| notes :=
        <[rowid := {| note_content := content;
                      note_created_at := now rowid |}]> (notes d);
      notes_seq := rowid;
      action_items := action_items d;
      action_items_seq := action_items_seq d |}).

(** [INSERT INTO action_items (note_id, text) VALUES (?, ?)] and
    [cursor.lastrowid] *)
Definition execute_insert_action_item (note_id : option Z) (item : str)
    (d : database) : Z * database :=
  let rowid := next_rowid (action_items d) (action_items_seq d) in
  (rowid,
   {| notes := notes d;
      notes_seq := notes_seq d;
      action_items :=
        <[rowid := {| item_note_id := note_id;
                      item_text := item;
                      item_done := 0;
                      item_created_at := now rowid |}]> (action_items d);
      action_items_seq := rowid |}).

(** The body of the loop of [insert_action_items], on [(ids, d)]. *)
Definition insert_step (note_id : option Z) (st : list Z * database)
    (item : str) : list Z * database :=
  let '(ids, d) := st in
  let '(rowid, d') := execute_insert_action_item note_id item d in
  (ids ++ [rowid], d').

Definition insert_action_items (items : list str) (note_id : option Z)
    (d : database) : list Z * database :=
  foldl (insert_step note_id) ([], d) items.

(** [SELECT ... FROM action_items WHERE id = ?] and [fetchone()] *)
Definition get_action_item (action_item_id : Z) (d : database)
  : option action_item_row :=
  action_items d !! action_item_id.

(** [UPDATE action_items SET done = ? WHERE id = ?]; [rowcount] is the
    number of rows the statement reached. *)
Definition mark_action_item_done (action_item_id : Z) (done : bool)
    (d : database) : bool * database :=
  let flag := if done then 1 else 0 in
  let rowcount :=
    match action_items d !! action_item_id with
    | Some _ => 1
    | None => 0
    end in
  (0 <? rowcount,
   {| notes := notes d;
      notes_seq := notes_seq d;
      action_items :=
        alter (fun row =>
                 {| item_note_id := item_note_id row;
                    item_text := item_text row;
                    item_done := flag;
                    item_created_at := item_created_at row |})
              action_item_id (action_items d);
      action_items_seq := action_items_seq d |}).

(** [CREATE TABLE IF NOT EXISTS] for the two tables: a table the file has
    is kept, a missing one starts empty. *)
Definition init_db (f : db_file) : database :=
  let '(notes_table, notes_seq0) := default (∅, 0) (file_notes f) in
  let '(items_table, items_seq0) := default (∅, 0) (file_action_items f) in
  {| notes := notes_table; notes_seq := notes_seq0;
     action_items := items_table; action_items_seq := items_seq0 |}.

(** [SELECT ... FROM notes WHERE id = ?] and [fetchone()] *)
Definition get_note (note_id : Z) (d : database) : option note_row :=
  notes d !! note_id.

(** [SELECT ... FROM notes ORDER BY id DESC] and [fetchall()] *)
Definition list_notes (d : database) : list (Z * note_row) :=
  rows_desc (notes d).

(** [SELECT ... FROM action_items [WHERE note_id = ?] ORDER BY id DESC] *)
Definition list_action_items (note_id : option Z) (d : database)
  : list (Z * action_item_row) :=
  match note_id with
  | None => rows_desc (action_items d)
  | Some n =>
      rows_desc
        (filter (fun kv => item_note_id kv.2 = Some n) (action_items d))
  end.
End Operations.
End db.

(** ** [routers/action_items.py] and [exceptions.py] *)

Record ExtractRequest := {
  extract_text : str;
  extract_save_note : bool
}.

Record ActionItemResponse := {
  response_id : Z;
  response_text : str
}.

Record ExtractResponse := {
  response_note_id : option Z;
  response_items : list ActionItemResponse
}.

Record MarkDoneRequest := { request_done : bool }.

Record MarkDoneResponse := {
  marked_id : Z;
  marked_done : bool
}.

(** What an endpoint gives the framework: a body, or an [HTTPException]
    with its status code and detail. *)
Inductive response (A : Type) :=
| Body (body : A)
| HTTPException (status_code : Z) (detail : str).
Arguments Body {A} body.
Arguments HTTPException {A} status_code detail.

Definition HTTP_404_NOT_FOUND : Z := 404.

Definition ActionItemNotFoundError {A} (action_item_id : Z) : response A :=
  HTTPException HTTP_404_NOT_FOUND
    (u "Action item with id " ++ decimal action_item_id ++ u " not found").

Record ActionItemDetailResponse := {
  detail_id : Z;
  detail_note_id : option Z;
  detail_text : str;
  detail_done : bool;
  detail_created_at : str
}.

Record NoteCreate := { create_content : str }.

Record NoteResponse := {
  note_response_id : Z;
  note_response_content : str;
  note_response_created_at : str
}.

Record NoteListResponse := { listed_notes : list NoteResponse }.

Definition NoteNotFoundError {A} (note_id : Z) : response A :=
  HTTPException HTTP_404_NOT_FOUND
    (u "Note with id " ++ decimal note_id ++ u " not found").

Module router.
Section Endpoints.
Context {tables : UnicodeTables}.
Variable now : Z -> str.

Definition extract (payload : ExtractRequest) (d : database)
  : ExtractResponse * database :=
  let text := strip (extract_text payload) in
  let '(note_id, d1) :=
    if extract_save_note payload then
      let '(rowid, d') := db.insert_note now text d in (Some rowid, d')
    else (None, d) in
  let items := extract_action_items text in
  let '(ids, d2) := db.insert_action_items now items note_id d1 in
  ({| response_note_id := note_id;
      response_items :=
        map (fun p => {| response_id := p.1; response_text := p.2 |})
            (zip ids items) |},
   d2).

Definition mark_done (action_item_id : Z) (payload : MarkDoneRequest)
    (d : database) : response MarkDoneResponse * database :=
  let '(success, d') :=
    db.mark_action_item_done action_item_id (request_done payload) d in
  if negb success then (ActionItemNotFoundError action_item_id, d')
  else
    (Body {| marked_id := action_item_id;
             marked_done := request_done payload |},
     d').

(** [bool(row["done"])] *)
Definition done_flag (done : Z) : bool := negb (done =? 0).

Definition list_all (note_id : option Z) (d : database)
  : list ActionItemDetailResponse :=
  let rows := db.list_action_items note_id d in
  map (fun row : Z * action_item_row =>
         {| detail_id := row.1;
            detail_note_id := item_note_id row.2;
            detail_text := item_text row.2;
            detail_done := done_flag (item_done row.2);
            detail_created_at := item_created_at row.2 |})
      rows.
End Endpoints.
End router.

(** ** [routers/notes.py] *)

Module notes_router.
Section Endpoints.
Variable now : Z -> str.

(** [note["id"]] and the like raise a [TypeError] on [None]; the
    framework turns an exception that is not an [HTTPException] into a
    server error. *)
Definition create_note (payload : NoteCreate) (d : database)
  : outcome NoteResponse * database :=
  let '(note_id, d') :=
    db.insert_note now (strip (create_content payload)) d in
  let note := db.get_note note_id d' in
  (match note with
   | Some row =>
       Returns {| note_response_id := note_id;
                  note_response_content := note_content row;
                  note_response_created_at := note_created_at row |}
   | None =>
       Raises (mk_exn TypeError
                 (u "'NoneType' object is not subscriptable"))
   end,
   d').

Definition list_all_notes (d : database) : NoteListResponse :=
  let rows := db.list_notes d in
  let notes :=
    map (fun row : Z * note_row =>
           {| note_response_id := row.1;
              note_response_content := note_content row.2;
              note_response_created_at := note_created_at row.2 |})
        rows in
  {| listed_notes := notes |}.

Definition get_single_note (note_id : Z) (d : database)
  : response NoteResponse :=
  let row := db.get_note note_id d in
  match row with
  | None => NoteNotFoundError note_id
  | Some row =>
      Body {| note_response_id := note_id;
              note_response_content := note_content row;
              note_response_created_at := note_created_at row |}
  end.
End Endpoints.
End notes_router.

Local Close Scope Z_scope.

(** ** Notions the statements use *)

(** Made of whitespace only (the empty string included). *)
Definition blank (s : str) : bool := forallb isspace s.

(** No whitespace at either end. *)
Definition trimmed (s : str) : Prop := strip s = s.

Section Notions.
Context {tables : UnicodeTables}.

(** The three rules of [_is_action_line], on the trimmed and lowercased
    line. *)
Definition bullet_rule (stripped : str) : bool :=
  re_match BULLET_PREFIX_PATTERN stripped.

Definition keyword_rule (stripped : str) : bool :=
  existsb (startswith stripped) KEYWORD_PREFIXES.

Definition checkbox_rule (stripped : str) : bool :=
  contains (u "[ ]") stripped || contains (u "[todo]") stripped.

(** The items of the pass over the lines. *)
Definition line_pass (text : str) : list str :=
  foldl line_pass_step [] (splitlines text).

(** A trimmed line after the bullet marker is taken off. *)
Definition after_bullet (line : str) : str :=
  strip (re_sub BULLET_PREFIX_PATTERN [] line).

(** What the pass over the lines appends for the trimmed line [line]. *)
Definition cleaned_line (line : str) : str :=
  strip (removeprefix (strip (removeprefix (after_bullet line) (u "[ ]")))
           (u "[todo]")).

(** What one line contributes. *)
Definition line_items (raw_line : str) : list str :=
  if negb (is_empty (strip raw_line)) && _is_action_line (strip raw_line)
  then [cleaned_line (strip raw_line)] else [].

(** What one sentence contributes. *)
Definition sentence_items (sentence : str) : list str :=
  if negb (is_empty (strip sentence)) && _looks_imperative (strip sentence)
  then [strip sentence] else [].

(** The sentences of the fallback, trimmed, the blank ones left out. *)
Definition sentences (text : str) : list str :=
  filter (fun s => s ≠ [])
         (map strip (re_split SENTENCE_BOUNDARY (strip text))).

(** Deduplication as the specification words it: an item is kept when no
    earlier item of the sequence has the same lowercased text. *)
Fixpoint first_occurrences_from (earlier : list str) (l : list str)
  : list str :=
  match l with
  | [] => []
  | x :: l' =>
      if bool_decide (str_lower x ∈ map str_lower earlier)
      then first_occurrences_from (earlier ++ [x]) l'
      else x :: first_occurrences_from (earlier ++ [x]) l'
  end.

Definition first_occurrences (l : list str) : list str :=
  first_occurrences_from [] l.
End Notions.

(** *** The two patterns of the fallback, read directly

    The cutting into sentences as the specification words it: a piece ends
    where whitespace follows [.], [!] or [?], and the whole run of
    whitespace is the boundary.  [pos] tells what precedes the character
    being read. *)

Inductive position := AtStart | After (c : char) | InBoundary.

Fixpoint sentence_pieces (pos : position) (cur : str) (s : str)
  : list str :=
  match s with
  | [] => [rev cur]
  | c :: s' =>
      match pos with
      | AtStart => sentence_pieces (After c) (c :: cur) s'
      | After p =>
          if is_terminator p && isspace c
          then rev cur :: sentence_pieces InBoundary [] s'
          else sentence_pieces (After c) (c :: cur) s'
      | InBoundary =>
          if isspace c then sentence_pieces InBoundary cur s'
          else sentence_pieces (After c) (c :: cur) s'
      end
  end.

Definition split_sentences (s : str) : list str :=
  sentence_pieces AtStart [] s.

Definition position_of (prev : option char) : position :=
  match prev with
  | Some c => After c
  | None => AtStart
  end.

(** The longest prefix made of characters of a class, and the rest. *)
Fixpoint take_run (p : char -> bool) (s : str) : str :=
  match s with
  | c :: s' => if p c then c :: take_run p s' else []
  | [] => []
  end.

Fixpoint skip_run (p : char -> bool) (s : str) : str :=
  match s with
  | c :: s' => if p c then skip_run p s' else s
  | [] => []
  end.

(** The first word of a sentence: the first run of ASCII letters and
    apostrophes, as long as it goes. *)
Fixpoint first_word (s : str) : option str :=
  match s with
  | [] => None
  | c :: s' =>
      if is_word_char c then Some (c :: take_run is_word_char s')
      else first_word s'
  end.

(** The keys of the [dict] branch, in the order they are tried. *)
Definition ITEM_KEYS : list str :=
  [u "action_items"; u "actionItems"; u "items"; u "actions"; u "tasks"].

(** The first of the keys whose value is present and true. *)
Definition first_key (d : list (str * pyval)) : option str :=
  find (fun k => truthy (dict_get d k)) ITEM_KEYS.

(** A completion service that answers [completion] to every request,
    with the decoder of the standard library.  The two [repr]s are
    stand-ins: no example reaches a float or a string inside a container. *)
Definition scripted_runtime (completion : str) : Runtime :=
  {| chat := fun _ => Returns (Some completion);
     json_loads := json_decode;
     float_repr := fun _ => u "nan";
     str_repr := fun s => [squote] ++ s ++ [squote] |}.

(** The texts of the examples. *)
Definition order_example : str :=
  str_join [LF]
    [u "- [ ] Set up database";
     u "* implement API extract endpoint";
     u "1. Write tests";
     u "Some narrative sentence."].

Definition fallback_example : str :=
  u "Fix the bug in the parser. It was raining outside.".

(** [{"action_items": ["a", "", "b"]}] *)
Definition keyed_example : str :=
  u "{" ++ [dquote] ++ u "action_items" ++ [dquote] ++ u ": ["
    ++ [dquote] ++ u "a" ++ [dquote] ++ u ", " ++ [dquote] ++ [dquote]
    ++ u ", " ++ [dquote] ++ u "b" ++ [dquote] ++ u "]}".

(** [[" "]] *)
Definition space_item_example : str :=
  u "[" ++ [dquote] ++ u " " ++ [dquote] ++ u "]".

(** *** The states of the database

    A file that has no table yet, the steps the endpoints that write make,
    and the states the application reaches from a fresh file. *)

Definition fresh_file : db_file :=
  {| file_notes := None; file_action_items := None |}.

(** What the file holds once the database is [d]. *)
Definition file_of (d : database) : db_file :=
  {| file_notes := Some (notes d, notes_seq d);
     file_action_items := Some (action_items d, action_items_seq d) |}.

Inductive api_step : database -> database -> Prop :=
| step_create_note (now : Z -> str) (payload : NoteCreate) d :
    api_step d (notes_router.create_note now payload d).2
| step_extract (tables : UnicodeTables) (now : Z -> str)
    (payload : ExtractRequest) d :
    api_step d (router.extract now payload d).2
| step_mark_done (action_item_id : Z) (payload : MarkDoneRequest) d :
    api_step d (router.mark_done action_item_id payload d).2.

Inductive reachable : database -> Prop :=
| reachable_init : reachable (db.init_db fresh_file)
| reachable_step d d' : reachable d -> api_step d d' -> reachable d'.

(** Ids are positive and at most the sequence of their table, a flag is 0
    or 1, and the note an item names exists. *)
Definition db_consistent (d : database) : Prop :=
  (forall k row, notes d !! k = Some row -> (0 < k <= notes_seq d)%Z)
  /\ (forall k row,
        action_items d !! k = Some row ->
        (0 < k <= action_items_seq d)%Z
        /\ (item_done row = 0%Z \/ item_done row = 1%Z)
        /\ forall n, item_note_id row = Some n -> is_Some (notes d !! n)).

(** *** Rows and entries

    The row an insertion of [item] makes under the id [rowid], and the
    rows of a whole call of [insert_action_items]. *)
Definition inserted_row (now : Z -> str) (note_id : option Z) (rowid : Z)
    (item : str) : action_item_row :=
  {| item_note_id := note_id; item_text := item; item_done := 0%Z;
     item_created_at := now rowid |}.

Definition inserted_rows (now : Z -> str) (note_id : option Z)
    (ids : list Z) (items : list str) : list (Z * action_item_row) :=
  zip_with (fun rowid item => (rowid, inserted_row now note_id rowid item))
    ids items.

(** The entry [list_all] makes of a row, and the answer the notes router
    makes of a note. *)
Definition detail_of (row : Z * action_item_row) : ActionItemDetailResponse :=
  {| detail_id := row.1;
     detail_note_id := item_note_id row.2;
     detail_text := item_text row.2;
     detail_done := router.done_flag (item_done row.2);
     detail_created_at := item_created_at row.2 |}.

Definition note_response_of (row : Z * note_row) : NoteResponse :=
  {| note_response_id := row.1;
     note_response_content := note_content row.2;
     note_response_created_at := note_created_at row.2 |}.

(** A row with its flag set. *)
Definition set_done (flag : Z) (row : action_item_row) : action_item_row :=
  {| item_note_id := item_note_id row; item_text := item_text row;
     item_done := flag; item_created_at := item_created_at row |}.

(** The entry of a listing for an item the extract endpoint has just
    answered. *)
Definition entry_of (now : Z -> str) (note_id : option Z)
    (item : ActionItemResponse) : ActionItemDetailResponse :=
  {| detail_id := response_id item;
     detail_note_id := note_id;
     detail_text := response_text item;
     detail_done := false;
     detail_created_at := now (response_id item) |}.


(** [x] is a contiguous part of [t]. *)
Definition part_of (x t : str) : Prop := exists a b, t = a ++ x ++ b.

(** [{"items": "ab"}] *)
Definition string_value_example : str :=
  u "{" ++ [dquote] ++ u "items" ++ [dquote] ++ u ": " ++ [dquote]
    ++ u "ab" ++ [dquote] ++ u "}".

(** ** Lemmas on strings *)

Definition head_ok (s : str) : Prop :=
  match s with
  | c :: _ => isspace c = false
  | [] => True
  end.

Lemma lstrip_head_ok s : head_ok (lstrip s).
Proof.
  induction s as [|c s IH]; simpl; [done|].
  destruct (isspace c) eqn:E; [done|]. simpl. done.
Qed.

Lemma lstrip_id s : head_ok s -> lstrip s = s.
Proof. destruct s as [|c s]; simpl; [done|]. by intros ->. Qed.

Lemma lstrip_app_keep a c b :
  isspace c = false -> lstrip (a ++ c :: b) = lstrip a ++ c :: b.
Proof.
  intros Hc. induction a as [|x a IH]; simpl.
  - by rewrite Hc.
  - destruct (isspace x); [done|]. done.
Qed.

Lemma lstrip_nil_blank s : lstrip s = [] <-> blank s = true.
Proof.
  unfold blank. induction s as [|c s IH]; simpl; [done|].
  destruct (isspace c); simpl; [done|]. split; discriminate.
Qed.

Lemma rstrip_head_ok s : head_ok s -> head_ok (rstrip s).
Proof.
  destruct s as [|c s]; [done|]. simpl. intros Hc.
  unfold rstrip. simpl. rewrite lstrip_app_keep by done.
  rewrite rev_app_distr. simpl. done.
Qed.

Lemma rstrip_keeps_head c s :
  isspace c = false -> exists t, rstrip (c :: s) = c :: t.
Proof.
  intros Hc. unfold rstrip. simpl. rewrite lstrip_app_keep by done.
  rewrite rev_app_distr. simpl. eauto.
Qed.

Lemma strip_head_ok s : head_ok (strip s).
Proof. apply rstrip_head_ok, lstrip_head_ok. Qed.

Lemma strip_last_ok s : head_ok (rev (strip s)).
Proof.
  unfold strip, rstrip. rewrite rev_involutive. apply lstrip_head_ok.
Qed.

Lemma strip_trimmed s : trimmed (strip s).
Proof.
  unfold trimmed. unfold strip at 1.
  rewrite (lstrip_id (strip s)) by apply strip_head_ok.
  unfold rstrip. rewrite (lstrip_id (rev (strip s))) by apply strip_last_ok.
  apply rev_involutive.
Qed.

Lemma strip_nil_blank s : strip s = [] <-> blank s = true.
Proof.
  rewrite <- lstrip_nil_blank. unfold strip. split.
  - intros H. pose proof (lstrip_head_ok s) as Hh.
    destruct (lstrip s) as [|c t] eqn:E; [done|].
    destruct (rstrip_keeps_head c t Hh) as [t' Ht]. congruence.
  - intros ->. done.
Qed.

Lemma is_empty_true {A} (l : list A) : is_empty l = true <-> l = [].
Proof. destruct l; simpl; split; congruence. Qed.

Lemma startswith_spec s p : startswith s p = true <-> exists r, s = p ++ r.
Proof.
  revert s. induction p as [|a p IH]; intros s; simpl.
  - split; [intros _; by exists s | done].
  - destruct s as [|b s]; simpl.
    + split; [discriminate|]. intros [r Hr]. discriminate.
    + rewrite andb_true_iff, N.eqb_eq, IH. split.
      * intros [-> [r ->]]. eauto.
      * intros [r Hr]. injection Hr as -> ->. eauto.
Qed.

Lemma contains_spec needle s :
  contains needle s = true <-> exists a b, s = a ++ needle ++ b.
Proof.
  induction s as [|c s IH]; simpl.
  - rewrite orb_false_r, startswith_spec. split.
    + intros [r Hr]. exists [], r. done.
    + intros [a [b H]]. destruct a; simpl in H.
      * eauto.
      * discriminate.
  - rewrite orb_true_iff, startswith_spec, IH. split.
    + intros [[r Hr] | [a [b H]]].
      * exists [], r. done.
      * exists (c :: a), b. simpl. by rewrite H.
    + intros [a [b H]]. destruct a as [|x a]; simpl in H.
      * left. eauto.
      * right. injection H as -> ->. eauto.
Qed.

(** ** Lemmas on the patterns *)

Lemma take_skip_run p s : take_run p s ++ skip_run p s = s.
Proof.
  induction s as [|c s IH]; simpl; [done|].
  destruct (p c); simpl; [by rewrite IH|done].
Qed.

Lemma length_run p s :
  length s = (length (take_run p s) + length (skip_run p s))%nat.
Proof. rewrite <- (take_skip_run p s) at 1. apply length_app. Qed.

Lemma take_take_run p s : take (length (take_run p s)) s = take_run p s.
Proof.
  rewrite <- (take_skip_run p s) at 2. by rewrite take_app_length.
Qed.

Lemma star_k_greedy p prev s :
  star_k p (fun _ rest => Some rest) prev s = Some (skip_run p s).
Proof.
  revert prev. induction s as [|c s IH]; intros prev; simpl; [done|].
  destruct (p c); [|done]. by rewrite IH.
Qed.

Lemma match_here_plus p prev s :
  match_here (RPlus p) prev s
  = match s with
    | c :: s' => if p c then Some (skip_run p s') else None
    | [] => None
    end.
Proof.
  unfold match_here. simpl. destruct s as [|c s]; [done|].
  destruct (p c); [|done]. apply star_k_greedy.
Qed.

Lemma match_here_boundary prev s :
  match_here SENTENCE_BOUNDARY prev s
  = match prev, s with
    | Some q, c :: s' =>
        if is_terminator q && isspace c
        then Some (skip_run isspace s') else None
    | _, _ => None
    end.
Proof.
  unfold match_here, SENTENCE_BOUNDARY. cbn [rmatch].
  destruct prev as [q|]; [|by destruct s].
  destruct (is_terminator q); cbn [andb].
  - destruct s as [|c s]; [done|]. destruct (isspace c); [|done].
    apply star_k_greedy.
  - by destruct s.
Qed.

Lemma segments_cons r prev cur c s :
  segments r 0 prev cur (c :: s)
  = match match_here r prev (c :: s) with
    | Some rest =>
        match (length (c :: s) - length rest)%nat with
        | S n =>
            Text (rev cur) :: Hit (take (S n) (c :: s))
              :: segments r n (Some c) [] s
        | O => segments r 0 (Some c) (c :: cur) s
        end
    | None => segments r 0 (Some c) (c :: cur) s
    end.
Proof. reflexivity. Qed.

Lemma length_matched p c s :
  (length (c :: s) - length (skip_run p s))%nat
  = S (length (take_run p s)).
Proof. pose proof (length_run p s). simpl. lia. Qed.

Lemma texts_cut t h l : texts (Text t :: Hit h :: l) = t :: texts l.
Proof. reflexivity. Qed.

Lemma hits_cut t h l : hits (Text t :: Hit h :: l) = h :: hits l.
Proof. reflexivity. Qed.

Lemma segments_boundary s :
  (forall prev cur,
     texts (segments SENTENCE_BOUNDARY 0 prev cur s)
     = sentence_pieces (position_of prev) cur s)
  /\ (forall prev,
        texts (segments SENTENCE_BOUNDARY
                 (length (take_run isspace s)) prev [] s)
        = sentence_pieces InBoundary [] s).
Proof.
  induction s as [|c s [IH1 IH2]].
  { split; intros; by destruct prev. }
  split.
  - intros prev cur. rewrite segments_cons, match_here_boundary.
    destruct prev as [q|]; cbn [position_of sentence_pieces].
    + destruct (is_terminator q && isspace c).
      * rewrite length_matched, texts_cut. by rewrite IH2.
      * apply (IH1 (Some c)).
    + apply (IH1 (Some c)).
  - intros prev. cbn [take_run sentence_pieces].
    destruct (isspace c) eqn:E.
    + cbn [length segments]. apply IH2.
    + cbn [length]. rewrite segments_cons, match_here_boundary.
      assert (match prev with
              | Some q =>
                  if is_terminator q && isspace c
                  then Some (skip_run isspace s) else None
              | None => None
              end = None) as ->.
      { destruct prev as [q|]; [|done]. rewrite E.
        by rewrite andb_false_r. }
      apply (IH1 (Some c) [c]).
Qed.

Lemma re_split_sentences s :
  re_split SENTENCE_BOUNDARY s = split_sentences s.
Proof. apply (proj1 (segments_boundary s) None []). Qed.

Lemma first_hit_word s : forall prev cur,
  head (hits (segments WORD_PATTERN 0 prev cur s)) = first_word s.
Proof.
  induction s as [|c s IH]; intros prev cur; [done|].
  rewrite segments_cons. unfold WORD_PATTERN at 1.
  rewrite match_here_plus. cbn [first_word].
  destruct (is_word_char c).
  - rewrite length_matched, hits_cut. cbn [head take].
    by rewrite take_take_run.
  - apply IH.
Qed.

Lemma re_findall_first_word s :
  head (re_findall WORD_PATTERN s) = first_word s.
Proof. apply first_hit_word. Qed.

(** ** Lemmas on the loops of the heuristic extractor *)

Lemma foldl_append {A B} (step : list B -> A -> list B) (g : A -> list B) :
  (forall acc x, step acc x = acc ++ g x) ->
  forall l acc, foldl step acc l = acc ++ concat (map g l).
Proof.
  intros Hstep l. induction l as [|x l IH]; intros acc; simpl.
  - by rewrite app_nil_r.
  - rewrite IH, Hstep. by rewrite <- app_assoc.
Qed.

Section HeuristicFacts.
Context {tables : UnicodeTables}.

Lemma line_pass_step_eq extracted raw_line :
  line_pass_step extracted raw_line = extracted ++ line_items raw_line.
Proof.
  unfold line_pass_step, line_items, cleaned_line, after_bullet.
  destruct (is_empty (strip raw_line)); simpl; [by rewrite app_nil_r|].
  destruct (_is_action_line (strip raw_line)); simpl; [done|].
  by rewrite app_nil_r.
Qed.

Lemma sentence_pass_step_eq extracted sentence :
  sentence_pass_step extracted sentence
  = extracted ++ sentence_items sentence.
Proof.
  unfold sentence_pass_step, sentence_items.
  destruct (is_empty (strip sentence)); simpl; [by rewrite app_nil_r|].
  destruct (_looks_imperative (strip sentence)); simpl; [done|].
  by rewrite app_nil_r.
Qed.

Lemma line_pass_eq text :
  line_pass text = concat (map line_items (splitlines text)).
Proof.
  unfold line_pass.
  by rewrite (foldl_append _ line_items line_pass_step_eq).
Qed.

Lemma sentence_pass_eq l :
  foldl sentence_pass_step [] l
  = filter (fun s => _looks_imperative s = true)
      (filter (fun s => s ≠ []) (map strip l)).
Proof.
  rewrite (foldl_append _ sentence_items sentence_pass_step_eq). simpl.
  induction l as [|x l IH]; simpl; [done|].
  rewrite IH. unfold sentence_items.
  destruct (strip x) as [|c t] eqn:E; simpl.
  - rewrite filter_cons_False by (intros H; by apply H). done.
  - rewrite filter_cons_True by done.
    destruct (_looks_imperative (c :: t)) eqn:L; simpl.
    + rewrite filter_cons_True by done. done.
    + rewrite filter_cons_False by (rewrite L; done). done.
Qed.

Lemma extracted_items_cases text :
  extracted_items text
  = if is_empty (line_pass text)
    then filter (fun s => _looks_imperative s = true) (sentences text)
    else line_pass text.
Proof.
  unfold extracted_items. fold (line_pass text).
  destruct (line_pass text) as [|x l] eqn:E; simpl; [|done].
  apply sentence_pass_eq.
Qed.



(** *** Deduplication *)

Lemma dedup_fold l : forall earlier (seen : gset (list N)) unique,
  (forall k, k ∈ seen <-> k ∈ map str_lower earlier) ->
  (foldl dedup_step (seen, unique) l).2
  = unique ++ first_occurrences_from earlier l.
Proof.
  induction l as [|x l IH]; intros earlier seen unique Hseen; simpl.
  - by rewrite app_nil_r.
  - rewrite (bool_decide_ext _ _ (Hseen (str_lower x))).
    destruct (bool_decide (str_lower x ∈ map str_lower earlier)) eqn:E.
    + apply bool_decide_eq_true in E. apply IH.
      intros k. rewrite Hseen, map_app, !list_elem_of_In, in_app_iff.
      simpl. rewrite <- !list_elem_of_In. split; [tauto|].
      intros [H|[<-|[]]]; done.
    + rewrite (IH (earlier ++ [x])).
      * by rewrite <- app_assoc.
      * intros k. rewrite elem_of_union, elem_of_singleton, Hseen.
        rewrite map_app, !list_elem_of_In, in_app_iff. simpl.
        split; [intros [->|H]; tauto|].
        intros [H|[<-|[]]]; tauto.
Qed.

Lemma extract_action_items_eq text :
  extract_action_items text = first_occurrences (extracted_items text).
Proof.
  unfold extract_action_items, first_occurrences.
  pose proof (dedup_fold (extracted_items text) [] ∅ []) as H.
  destruct (foldl dedup_step (∅, []) (extracted_items text)) as [seen un].
  simpl in H. apply H. intros k. simpl. split.
  - intros Hk. by apply not_elem_of_empty in Hk.
  - intros Hk. by apply not_elem_of_nil in Hk.
Qed.

Lemma first_occurrences_fresh l : forall earlier x,
  x ∈ first_occurrences_from earlier l ->
  (str_lower x ∉ map str_lower earlier) /\ x ∈ l.
Proof.
  induction l as [|y l IH]; intros earlier x; simpl.
  - intros H. by apply not_elem_of_nil in H.
  - destruct (bool_decide _) eqn:E.
    + intros H. apply IH in H as [H1 H2]. split.
      * intros Hin. apply H1. rewrite map_app.
        apply list_elem_of_In, in_app_iff. left.
        by apply list_elem_of_In.
      * by apply list_elem_of_further.
    + apply bool_decide_eq_false in E.
      rewrite elem_of_cons. intros [->|H].
      * split; [done|]. apply list_elem_of_here.
      * apply IH in H as [H1 H2]. split.
        -- intros Hin. apply H1. rewrite map_app.
           apply list_elem_of_In, in_app_iff. left.
           by apply list_elem_of_In.
        -- by apply list_elem_of_further.
Qed.

Lemma first_occurrences_NoDup l : forall earlier,
  NoDup (map str_lower (first_occurrences_from earlier l)).
Proof.
  induction l as [|y l IH]; intros earlier; simpl.
  - apply NoDup_nil_2.
  - destruct (bool_decide _) eqn:E; [apply IH|].
    simpl. apply NoDup_cons_2; [|apply IH].
    intros Hin. apply list_elem_of_In, in_map_iff in Hin as [z [Hz Hin]].
    apply list_elem_of_In, first_occurrences_fresh in Hin as [Hf _].
    apply Hf. rewrite map_app. apply list_elem_of_In, in_app_iff. right.
    simpl. left. done.
Qed.

Lemma first_occurrences_sublist l : forall earlier,
  sublist (first_occurrences_from earlier l) l.
Proof.
  induction l as [|y l IH]; intros earlier; simpl.
  - constructor.
  - destruct (bool_decide _).
    + apply sublist_cons, IH.
    + apply sublist_skip, IH.
Qed.

Lemma first_occurrences_covers l : forall earlier x,
  x ∈ l ->
  str_lower x ∈ map str_lower earlier
  \/ str_lower x ∈ map str_lower (first_occurrences_from earlier l).
Proof.
  induction l as [|y l IH]; intros earlier x; simpl.
  - intros H. by apply not_elem_of_nil in H.
  - rewrite elem_of_cons. intros [->|Hx].
    + destruct (bool_decide _) eqn:E.
      * apply bool_decide_eq_true in E. by left.
      * right. simpl. apply list_elem_of_here.
    + destruct (IH (earlier ++ [y]) x Hx) as [H|H].
      * rewrite map_app in H.
        apply list_elem_of_In, in_app_iff in H as [H|[H|[]]].
        -- left. by apply list_elem_of_In.
        -- destruct (bool_decide _) eqn:E.
           ++ apply bool_decide_eq_true in E. left. by rewrite <- H.
           ++ right. simpl. rewrite <- H. apply list_elem_of_here.
      * destruct (bool_decide _); [by right|].
        right. simpl. by apply list_elem_of_further.
Qed.

(** *** The checkbox tokens *)

Lemma cleaned_line_cases line :
  let a := after_bullet line in
  cleaned_line line =
    if startswith a (u "[ ]") then
      let b := strip (drop 3 a) in
      if startswith b (u "[todo]") then strip (drop 6 b) else b
    else if startswith a (u "[todo]") then strip (drop 6 a)
    else a.
Proof.
  intros a. unfold cleaned_line. fold a. unfold removeprefix at 2.
  assert (Ha : strip a = a) by apply strip_trimmed.
  destruct (startswith a (u "[ ]")) eqn:E1.
  - unfold removeprefix.
    change (length (u "[ ]")) with 3%nat.
    change (length (u "[todo]")) with 6%nat.
    destruct (startswith (strip (drop 3 a)) (u "[todo]")); [done|].
    apply strip_trimmed.
  - rewrite Ha. unfold removeprefix.
    change (length (u "[todo]")) with 6%nat.
    destruct (startswith a (u "[todo]")); [done|]. done.
Qed.

Lemma is_action_line_rules line :
  let stripped := str_lower (strip line) in
  _is_action_line line
  = negb (is_empty stripped)
    && (bullet_rule stripped || keyword_rule stripped
        || checkbox_rule stripped).
Proof.
  intros stripped. unfold _is_action_line. fold stripped.
  fold (bullet_rule stripped) (keyword_rule stripped)
    (checkbox_rule stripped).
  destruct (is_empty stripped); simpl; [done|].
  destruct (bullet_rule stripped); simpl; [done|].
  destruct (keyword_rule stripped); simpl; [done|].
  by destruct (checkbox_rule stripped).
Qed.
End HeuristicFacts.

(** ** Lemmas on the model-backed extractor *)


Lemma blank_test text :
  is_empty text || is_empty (strip text) = blank text.
Proof.
  apply eq_true_iff_eq.
  rewrite orb_true_iff, !is_empty_true, strip_nil_blank. split.
  - intros [->|H]; done.
  - tauto.
Qed.


Section ModelFacts.
Context {rt : Runtime}.





Lemma dict_items_first_key d :
  dict_items d
  = match first_key d with
    | Some key => dict_get d key
    | None => PyList []
    end.
Proof.
  unfold dict_items, first_key, ITEM_KEYS, py_or. simpl.
  repeat (match goal with
          | |- context [truthy (dict_get d ?k)] =>
              destruct (truthy (dict_get d k)); [done|]
          end).
  done.
Qed.

(** The result of a run, whatever happened in the [try] block. *)
Lemma run_result_eq text model :
  run_result (extract_action_items_llm text model)
  = Returns (if blank text then []
             else match llm_try text model with
                  | Returns items => items
                  | Raises _ => []
                  end).
Proof.
  unfold extract_action_items_llm. rewrite blank_test.
  destruct (blank text); [done|].
  destruct (llm_try text model) as [items|[cls msg]]; [done|].
  by destruct cls.
Qed.

Lemma run_printed_eq text model :
  run_printed (extract_action_items_llm text model)
  = if blank text then []
    else match llm_try text model with
         | Returns _ => []
         | Raises e =>
             match exn_cls e with
             | JSONDecodeError => []
             | _ => [u "Error in extract_action_items_llm: " ++ exn_msg e]
             end
         end.
Proof.
  unfold extract_action_items_llm. rewrite blank_test.
  destruct (blank text); [done|].
  destruct (llm_try text model) as [items|[cls msg]]; [done|].
  by destruct cls.
Qed.

Lemma run_calls_eq text model :
  run_calls (extract_action_items_llm text model)
  = if blank text then [] else [llm_request text model].
Proof.
  unfold extract_action_items_llm. rewrite blank_test.
  destruct (blank text); [done|].
  destruct (llm_try text model) as [items|[cls msg]]; [done|].
  by destruct cls.
Qed.

End ModelFacts.

(** ** Lemmas on the storage *)

Local Open Scope Z_scope.

Lemma max_rowid_ge {A} (table : gmap Z A) k :
  is_Some (table !! k) -> k <= max_rowid table.
Proof.
  intros [row Hrow]. apply elem_of_map_to_list in Hrow.
  unfold max_rowid. induction (map_to_list table) as [|[k' v] l IH].
  - by apply not_elem_of_nil in Hrow.
  - simpl. apply elem_of_cons in Hrow as [[= <- <-]|Hin]; [lia|].
    specialize (IH Hin). lia.
Qed.

Lemma next_rowid_fresh {A} (table : gmap Z A) seq :
  table !! next_rowid table seq = None.
Proof.
  destruct (table !! next_rowid table seq) eqn:E; [|done].
  assert (is_Some (table !! next_rowid table seq)) as H by eauto.
  apply max_rowid_ge in H. unfold next_rowid in H. lia.
Qed.

Section StorageFacts.
Variable now : Z -> str.

(** The loop of [insert_action_items], from any state of the loop. *)
Lemma insert_fold note_id items : forall ids0 d0,
  let r := foldl (db.insert_step now note_id) (ids0, d0) items in
  exists new,
    r.1 = ids0 ++ new
    /\ length new = length items
    /\ NoDup new
    /\ (forall i rowid, new !! i = Some rowid ->
          action_items d0 !! rowid = None
          /\ exists text, items !! i = Some text
             /\ action_items r.2 !! rowid
                = Some {| item_note_id := note_id; item_text := text;
                          item_done := 0;
                          item_created_at := now rowid |})
    /\ (forall k row, action_items d0 !! k = Some row ->
          action_items r.2 !! k = Some row)
    /\ notes r.2 = notes d0
    /\ notes_seq r.2 = notes_seq d0.
Proof.
  induction items as [|x items IH]; intros ids0 d0; simpl.
  - exists []. rewrite app_nil_r. repeat split; try done.
    apply NoDup_nil_2.
  - set (rowid1 := next_rowid (action_items d0) (action_items_seq d0)).
    set (d1 := {| notes := notes d0; notes_seq := notes_seq d0;
                  action_items := _; action_items_seq := rowid1 |}).
    destruct (IH (ids0 ++ [rowid1]) d1)
      as (new & H1 & H2 & Hnd & H3 & H4 & H5 & H6).
    assert (Hfresh : action_items d0 !! rowid1 = None)
      by apply next_rowid_fresh.
    exists (rowid1 :: new). repeat split.
    + rewrite H1. by rewrite <- app_assoc.
    + simpl. by rewrite H2.
    + apply NoDup_cons_2; [|done].
      intros Hin. apply list_elem_of_lookup in Hin as [i Hi].
      apply H3 in Hi as [Hnone _]. simpl in Hnone.
      by rewrite lookup_insert_eq in Hnone.
    + destruct i as [|i]; simpl in *.
      * by injection H as <-.
      * apply H3 in H as [Hnone _]. simpl in Hnone.
        destruct (decide (rowid1 = rowid)) as [<-|Hne].
        -- by rewrite lookup_insert_eq in Hnone.
        -- by rewrite lookup_insert_ne in Hnone.
    + destruct i as [|i]; simpl in *.
      * injection H as <-. exists x. split; [done|].
        apply H4. simpl. apply lookup_insert_eq.
      * apply H3 in H as [_ H]. done.
    + intros k row Hk. apply H4. simpl.
      rewrite lookup_insert_ne; [done|]. intros <-. congruence.
    + by rewrite H5.
    + by rewrite H6.
Qed.

Lemma insert_action_items_spec items note_id d :
  let r := db.insert_action_items now items note_id d in
  length r.1 = length items
  /\ NoDup r.1
  /\ (forall i rowid, r.1 !! i = Some rowid ->
        action_items d !! rowid = None
        /\ exists text, items !! i = Some text
           /\ action_items r.2 !! rowid
              = Some {| item_note_id := note_id; item_text := text;
                        item_done := 0; item_created_at := now rowid |})
  /\ (forall k row, action_items d !! k = Some row ->
        action_items r.2 !! k = Some row)
  /\ notes r.2 = notes d.
Proof.
  unfold db.insert_action_items.
  destruct (insert_fold note_id items [] d)
    as (new & H1 & H2 & Hnd & H3 & H4 & H5 & _).
  simpl in *. rewrite H1. repeat split; try done.
  - by apply H3 in H as [? _].
  - by apply H3 in H as [_ ?].
Qed.
End StorageFacts.

Local Close Scope Z_scope.

(** ** The heuristic extractor: statements *)




(** C3: the items [extract_action_items] returns are pairwise different
    after lowercasing; the result is the sequence of the two passes with
    every item dropped whose lowercased text an earlier item already has,
    so the first occurrence stays, in the order of the sequence, and every
    lowercased text of the sequence is still there. *)
Theorem extract_action_items_dedup (tables : UnicodeTables) (text : str) :
  let out := extract_action_items text in
  (forall i j x y,
     out !! i = Some x -> out !! j = Some y -> i ≠ j ->
     str_lower x ≠ str_lower y)
  /\ out = first_occurrences (extracted_items text)
  /\ sublist out (extracted_items text)
  /\ (forall x, x ∈ extracted_items text ->
        exists y, y ∈ out /\ str_lower y = str_lower x).
Proof.
  intros out. subst out. rewrite extract_action_items_eq.
  unfold first_occurrences. repeat split.
  - intros i j x y Hi Hj Hij Heq. apply Hij.
    pose proof (first_occurrences_NoDup (extracted_items text) []) as Hnd.
    change (map str_lower ?l) with (str_lower <$> l) in Hnd.
    rewrite NoDup_alt in Hnd. apply (Hnd i j (str_lower x)).
    + by rewrite list_lookup_fmap, Hi.
    + rewrite list_lookup_fmap, Hj. simpl. by rewrite Heq.
  - apply first_occurrences_sublist.
  - intros x Hx.
    destruct (first_occurrences_covers _ [] x Hx) as [H|H].
    + by apply not_elem_of_nil in H.
    + apply list_elem_of_In, in_map_iff in H as [y [Hy Hin]].
      exists y. split; [by apply list_elem_of_In|done].
Qed.

(** C4: on the four lines of [order_example] the extractor returns the
    three marked items, in the order of the text, without the narrative
    line. *)
Theorem extract_order_example :
  @extract_action_items latin1_tables order_example
  = [u "Set up database"; u "implement API extract endpoint";
     u "Write tests"].
Proof. vm_compute. reflexivity. Qed.

(** C5: the sentence fallback contributes only when the pass over the
    lines found nothing; then the sequence is made of the trimmed,
    non-blank pieces of the trimmed text, cut at the whitespace that
    follows [.], [!] or [?] (the pattern cuts as [split_sentences] does),
    whose first word (the first run of ASCII letters and apostrophes,
    [first_word]) is, lowercased, one of the imperative starters; the
    pieces are kept as they are.  On [fallback_example] the result is the
    first sentence alone. *)
Theorem fallback_imperative_sentences :
  (forall (tables : UnicodeTables) (text : str),
     (line_pass text ≠ [] -> extracted_items text = line_pass text)
     /\ (line_pass text = [] ->
         extracted_items text
         = filter (fun s => _looks_imperative s = true) (sentences text))
     /\ sentences text
        = filter (fun s => s ≠ [])
            (map strip (re_split SENTENCE_BOUNDARY (strip text)))
     /\ re_split SENTENCE_BOUNDARY (strip text)
        = split_sentences (strip text)
     /\ (forall s,
           _looks_imperative s = true <->
           exists first,
             first_word s = Some first
             /\ str_lower first ∈ imperative_starters)
     /\ (forall s, head (re_findall WORD_PATTERN s) = first_word s)
     /\ extract_action_items text
        = first_occurrences (extracted_items text))
  /\ @line_pass latin1_tables fallback_example = []
  /\ @extract_action_items latin1_tables fallback_example
     = [u "Fix the bug in the parser."].
Proof.
  split; [|split; vm_compute; reflexivity].
  intros tables text. repeat split.
  - intros Hne. rewrite extracted_items_cases.
    by destruct (line_pass text).
  - intros Hnil. by rewrite extracted_items_cases, Hnil.
  - apply re_split_sentences.
  - rewrite <- re_findall_first_word. unfold _looks_imperative.
    destruct (re_findall WORD_PATTERN s) as [|first l]; simpl.
    + discriminate.
    + intros H. apply bool_decide_eq_true in H. eauto.
  - rewrite <- re_findall_first_word. unfold _looks_imperative.
    intros [first [Hhead Hin]].
    destruct (re_findall WORD_PATTERN s) as [|w l]; simpl in *.
    + discriminate.
    + injection Hhead as ->. by apply bool_decide_eq_true.
  - apply re_findall_first_word.
  - apply extract_action_items_eq.
Qed.

Lemma fallback_imperative_sentences_witness :
  @line_pass latin1_tables fallback_example = []
  /\ @extracted_items latin1_tables fallback_example
     = filter (fun s => @_looks_imperative latin1_tables s = true)
         (sentences fallback_example).
Proof.
  assert (H : @line_pass latin1_tables fallback_example = [])
    by (vm_compute; reflexivity).
  split; [exact H|].
  exact (proj1 (proj2 (proj1 fallback_imperative_sentences
                         latin1_tables fallback_example)) H).
Defined.

(** C8, as the specification words it, fails: the line ["[x] a [ ] b"]
    contains ["[x]"], has no bullet marker and no keyword prefix, and is an
    action line by the checkbox rule. *)
Lemma checkbox_rule_on_x_line :
  ~ (forall line,
       contains (u "[x]") (@str_lower latin1_tables (strip line)) = true ->
       @_is_action_line latin1_tables line = true ->
       @bullet_rule latin1_tables (@str_lower latin1_tables (strip line))
       = true
       \/ keyword_rule (@str_lower latin1_tables (strip line)) = true).
Proof.
  intros H. specialize (H (u "[x] a [ ] b") eq_refl eq_refl).
  destruct H; discriminate.
Qed.

(** C8, amended: after the bullet marker, the pass over the lines takes off
    a leading ["[ ]"], then a leading ["[todo]"], compared as written, and
    nothing else but surrounding whitespace: a line that then starts with
    ["[x]"] is kept whole.  A line is an action line by one of three rules
    on its trimmed, lowercased form; the checkbox rule holds exactly when
    that form contains ["[ ]"] or ["[todo]"], so a line with ["[x]"] and
    neither of them is an action line only by a bullet marker or a keyword
    prefix. *)
Theorem checkbox_token_asymmetry :
  (forall (tables : UnicodeTables) (line : str),
     let a := after_bullet line in
     let stripped := str_lower (strip line) in
     (forall extracted,
        line_pass_step extracted line = extracted ++ line_items line)
     /\ line_items line
        = (if negb (is_empty (strip line)) && _is_action_line (strip line)
           then [cleaned_line (strip line)] else [])
     /\ cleaned_line line
        = (if startswith a (u "[ ]") then
             let b := strip (drop 3 a) in
             if startswith b (u "[todo]") then strip (drop 6 b) else b
           else if startswith a (u "[todo]") then strip (drop 6 a)
           else a)
     /\ (forall rest, a = u "[x]" ++ rest -> cleaned_line line = a)
     /\ _is_action_line line
        = negb (is_empty stripped)
          && (bullet_rule stripped || keyword_rule stripped
              || checkbox_rule stripped)
     /\ (checkbox_rule stripped = true <->
         (exists p q, stripped = p ++ u "[ ]" ++ q)
         \/ (exists p q, stripped = p ++ u "[todo]" ++ q))
     /\ (contains (u "[ ]") stripped = false ->
         contains (u "[todo]") stripped = false ->
         _is_action_line line
         = negb (is_empty stripped)
           && (bullet_rule stripped || keyword_rule stripped)))
  /\ @_is_action_line latin1_tables (u "[x] Review pull request") = false
  /\ @extract_action_items latin1_tables (u "- [x] Review pull request")
     = [u "[x] Review pull request"]
  /\ @extract_action_items latin1_tables (u "[TODO] Deploy")
     = [u "[TODO] Deploy"]
  /\ @extract_action_items latin1_tables (u "[todo] Deploy") = [u "Deploy"].
Proof.
  split; [|repeat split; vm_compute; reflexivity].
  intros tables line a stripped. split; [|split; [|split; [|split; [|split; [|split]]]]].
  - intros extracted. apply line_pass_step_eq.
  - done.
  - apply cleaned_line_cases.
  - intros rest Ha. rewrite cleaned_line_cases. fold a. by rewrite Ha.
  - apply is_action_line_rules.
  - unfold checkbox_rule. by rewrite orb_true_iff, !contains_spec.
  - intros H1 H2. rewrite is_action_line_rules. fold stripped.
    unfold checkbox_rule. rewrite H1, H2. simpl. by rewrite orb_false_r.
Qed.

Lemma checkbox_token_asymmetry_witness :
  @after_bullet latin1_tables (u "- [x] done") = u "[x]" ++ u " done"
  /\ @cleaned_line latin1_tables (u "- [x] done") = u "[x] done".
Proof.
  assert (H : @after_bullet latin1_tables (u "- [x] done")
              = u "[x]" ++ u " done") by (vm_compute; reflexivity).
  split; [exact H|].
  rewrite (proj1 (proj2 (proj2 (proj2 (proj1 checkbox_token_asymmetry
             latin1_tables (u "- [x] done"))))) (u " done") H).
  exact H.
Defined.

(** ** The model-backed extractor: statements *)







(** C7: on a text that is empty or made of whitespace only, the run hands
    the empty list to its caller, prints nothing and makes no call to the
    completion service, whatever the service would have answered; on any
    other text it makes exactly one call. *)
Theorem blank_text_skips_model :
  (forall (rt : Runtime) (text model : str),
     blank text = true ->
     extract_action_items_llm text model
     = {| run_result := Returns []; run_printed := []; run_calls := [] |})
  /\ (forall (rt : Runtime) (model : str),
        Forall
          (fun text =>
             extract_action_items_llm text model
             = {| run_result := Returns []; run_printed := [];
                  run_calls := [] |})
          [[]; u "   "; [LF; LF]])
  /\ (forall (rt : Runtime) (text model : str),
        blank text = false ->
        run_calls (extract_action_items_llm text model)
        = [llm_request text model])
  /\ (forall text, blank text = true <-> strip text = []).
Proof.
  assert (H : forall (rt : Runtime) (text model : str),
     blank text = true ->
     extract_action_items_llm text model
     = {| run_result := Returns []; run_printed := []; run_calls := [] |}).
  { intros rt text model Hb. unfold extract_action_items_llm.
    by rewrite blank_test, Hb. }
  split; [exact H|]. split; [|split].
  - intros rt model. repeat constructor; by apply H.
  - intros rt text model Hb. by rewrite run_calls_eq, Hb.
  - intros text. symmetry. apply strip_nil_blank.
Qed.

Lemma blank_text_skips_model_witness :
  blank (u "   ") = true
  /\ @extract_action_items_llm (scripted_runtime keyed_example)
       (u "   ") (u "llama3.2:3b")
     = {| run_result := Returns []; run_printed := []; run_calls := [] |}.
Proof.
  assert (H : blank (u "   ") = true) by reflexivity.
  split; [exact H|].
  exact (proj1 blank_text_skips_model (scripted_runtime keyed_example)
           (u "   ") (u "llama3.2:3b") H).
Defined.

(** ** The storage and the endpoints: statements *)

Local Open Scope Z_scope.





Local Close Scope Z_scope.


(** * Further properties of the storage, the endpoints and the extractors *)

Local Open Scope Z_scope.

(** ** Lemmas on the listing of a table *)

Lemma id_desc_trans {A} : Transitive (@id_desc A).
Proof. intros a b c. unfold id_desc. lia. Qed.

Lemma id_desc_total {A} : Total (@id_desc A).
Proof. intros a b. unfold id_desc. lia. Qed.

Lemma rows_desc_elem {A} (table : gmap Z A) k row :
  (k, row) ∈ rows_desc table <-> table !! k = Some row.
Proof.
  unfold rows_desc. rewrite merge_sort_Permutation.
  apply elem_of_map_to_list.
Qed.

Lemma rows_desc_NoDup_ids {A} (table : gmap Z A) :
  NoDup ((rows_desc table).*1).
Proof.
  unfold rows_desc. rewrite merge_sort_Permutation.
  apply NoDup_fst_map_to_list.
Qed.

Lemma sorted_strict {A} (l : list (Z * A)) :
  StronglySorted id_desc l -> NoDup (l.*1) ->
  StronglySorted (fun a b => b.1 < a.1) l.
Proof.
  induction 1 as [|x l Hl IH Hx]; intros Hnd; [constructor|].
  simpl in Hnd. apply NoDup_cons in Hnd as [Hnotin Hnd].
  constructor; [by apply IH|].
  rewrite Forall_forall in Hx |- *. intros y Hy.
  specialize (Hx y Hy). unfold id_desc in Hx.
  assert (y.1 ≠ x.1); [|lia].
  intros Heq. apply Hnotin. rewrite <- Heq.
  by apply list_elem_of_fmap_2.
Qed.

Lemma rows_desc_sorted {A} (table : gmap Z A) :
  StronglySorted (fun a b => b.1 < a.1) (rows_desc table).
Proof.
  apply sorted_strict; [|apply rows_desc_NoDup_ids].
  apply StronglySorted_merge_sort;
    [apply id_desc_trans | apply id_desc_total].
Qed.

Lemma rows_desc_length {A} (table : gmap Z A) :
  length (rows_desc table) = size table.
Proof.
  unfold rows_desc. rewrite merge_sort_Permutation.
  apply length_map_to_list.
Qed.

Lemma strict_NoDup {A} (l : list (Z * A)) :
  StronglySorted (fun a b => b.1 < a.1) l -> NoDup l.
Proof.
  induction 1 as [|x l Hl IH Hx]; [constructor|].
  constructor; [|done]. intros Hin.
  rewrite Forall_forall in Hx. specialize (Hx x Hin). lia.
Qed.

Lemma strict_weak {A} (l : list (Z * A)) :
  StronglySorted (fun a b => b.1 < a.1) l -> StronglySorted id_desc l.
Proof.
  induction 1 as [|x l Hl IH Hx]; constructor; [done|].
  eapply Forall_impl; [exact Hx|]. intros y Hy. unfold id_desc. simpl in Hy. lia.
Qed.

(** A list in descending order of ids that holds the rows of the table
    is the listing of the table. *)
Lemma rows_desc_unique {A} (table : gmap Z A) (l : list (Z * A)) :
  StronglySorted (fun a b => b.1 < a.1) l ->
  (forall k row, (k, row) ∈ l <-> table !! k = Some row) ->
  rows_desc table = l.
Proof.
  intros Hs Hl.
  apply (StronglySorted_unique_strong id_desc).
  - intros [k1 r1] [k2 r2] H1 H2 Ha Hb. unfold id_desc in Ha, Hb.
    simpl in *. assert (k1 = k2) as -> by lia.
    apply rows_desc_elem in H1. apply Hl in H2. congruence.
  - apply strict_weak, rows_desc_sorted.
  - by apply strict_weak.
  - apply NoDup_Permutation.
    + apply strict_NoDup, rows_desc_sorted.
    + by apply strict_NoDup.
    + intros [k row]. by rewrite rows_desc_elem, Hl.
Qed.

Lemma max_rowid_nonneg {A} (table : gmap Z A) : 0 <= max_rowid table.
Proof.
  unfold max_rowid. induction (map_to_list table) as [|kv l IH]; simpl; lia.
Qed.

Lemma next_rowid_above {A} (table : gmap Z A) seq :
  0 < next_rowid table seq
  /\ seq < next_rowid table seq
  /\ forall k, is_Some (table !! k) -> k < next_rowid table seq.
Proof.
  unfold next_rowid. pose proof (max_rowid_nonneg table).
  repeat split; try lia.
  intros k Hk. apply max_rowid_ge in Hk. lia.
Qed.

Section StorageMore.
Variable now : Z -> str.

(** The loop of [insert_action_items]: the ids grow, start above the
    sequence and above every id of the table, and end at the sequence;
    the table gets the new rows and nothing else. *)
Lemma insert_fold_ids note_id items : forall ids0 d0,
  let r := foldl (db.insert_step now note_id) (ids0, d0) items in
  exists new,
    r.1 = ids0 ++ new
    /\ StronglySorted Z.lt new
    /\ Forall (fun k =>
                 0 < k /\ action_items_seq d0 < k <= action_items_seq r.2
                 /\ forall k', is_Some (action_items d0 !! k') -> k' < k)
              new
    /\ action_items_seq d0 <= action_items_seq r.2
    /\ (forall k row,
          action_items r.2 !! k = Some row ->
          action_items d0 !! k = Some row \/ k ∈ new)
    /\ size (action_items r.2)
       = (size (action_items d0) + length items)%nat.
Proof.
  induction items as [|x items IH]; intros ids0 d0; simpl.
  - exists []. rewrite app_nil_r. repeat split; try done; try constructor.
    done.
  - set (rowid1 := next_rowid (action_items d0) (action_items_seq d0)).
    set (d1 := {| notes := notes d0; notes_seq := notes_seq d0;
                  action_items := _; action_items_seq := rowid1 |}).
    destruct (next_rowid_above (action_items d0) (action_items_seq d0))
      as (Hpos & Hseq & Hold). fold rowid1 in Hpos, Hseq, Hold.
    destruct (IH (ids0 ++ [rowid1]) d1)
      as (new & H1 & H2 & H3 & H4 & H5 & H6).
    simpl in H3, H4.
    exists (rowid1 :: new). split; [|split; [|split; [|split; [|split]]]].
    + rewrite H1. by rewrite <- app_assoc.
    + constructor; [done|]. eapply Forall_impl; [exact H3|].
      intros k (_ & Hk & _). simpl in Hk. lia.
    + constructor.
      * repeat split; try done; lia.
      * eapply Forall_impl; [exact H3|]. intros k (Hk0 & Hk1 & Hk2).
        repeat split; try lia.
        intros k' Hk'. apply Hk2. simpl.
        rewrite lookup_insert_is_Some. destruct (decide (rowid1 = k')); auto.
    + lia.
    + intros k row Hk. destruct (H5 k row Hk) as [Hin|Hin].
      * simpl in Hin. apply lookup_insert_Some in Hin as [[<- _]|[_ Hin]].
        -- right. apply list_elem_of_here.
        -- by left.
      * right. by apply list_elem_of_further.
    + rewrite H6. simpl. rewrite map_size_insert_None; [lia|].
      apply next_rowid_fresh.
Qed.
End StorageMore.

Section ListingAfterInsert.
Variable now : Z -> str.

Lemma inserted_rows_sorted note_id ids : forall items,
  StronglySorted Z.lt ids ->
  StronglySorted (fun a b : Z * action_item_row => b.1 < a.1)
    (reverse (inserted_rows now note_id ids items)).
Proof.
  unfold inserted_rows.
  induction ids as [|k ids IH]; intros items Hs; [constructor|].
  destruct items as [|item items]; [constructor|]. simpl.
  apply StronglySorted_cons in Hs as [Hk Hs].
  rewrite reverse_cons. apply StronglySorted_app. repeat split.
  - intros x1 x2 Hx1 Hx2. apply list_elem_of_singleton in Hx2 as ->.
    apply elem_of_reverse, elem_of_zip_with in Hx1
      as (k' & item' & -> & Hk' & _). simpl.
    rewrite Forall_forall in Hk. by apply Hk.
  - by apply IH.
  - repeat constructor.
Qed.

Lemma inserted_rows_elem note_id ids items k row :
  length ids = length items ->
  (k, row) ∈ inserted_rows now note_id ids items <->
  exists i item, ids !! i = Some k /\ items !! i = Some item
                 /\ row = inserted_row now note_id k item.
Proof.
  intros Hlen. unfold inserted_rows. rewrite list_elem_of_lookup. split.
  - intros [i Hi]. apply lookup_zip_with_Some in Hi
      as (k' & item & [= -> ->] & H1 & H2). eauto.
  - intros (i & item & H1 & H2 & ->). exists i.
    apply lookup_zip_with_Some. eauto.
Qed.

(** The listing of the table after [insert_action_items]: the new rows,
    the last first, then the listing before. *)
Lemma insert_rows_desc items note_id d :
  let r := db.insert_action_items now items note_id d in
  rows_desc (action_items r.2)
  = reverse (inserted_rows now note_id r.1 items)
    ++ rows_desc (action_items d).
Proof.
  intros r.
  destruct (insert_action_items_spec now items note_id d)
    as (Hlen & Hnd & Hrows & Hold & _). fold r in Hlen, Hnd, Hrows, Hold.
  destruct (insert_fold_ids now note_id items [] d)
    as (new & H1 & H2 & H3 & H4 & H5 & _).
  simpl in H1. change (foldl _ _ items) with r in H1, H3, H4, H5.
  rewrite <- H1 in H2, H3, H5. clear new H1.
  apply rows_desc_unique.
  - apply StronglySorted_app. repeat split.
    + intros [k1 r1] [k2 r2] Hx1 Hx2. simpl.
      apply elem_of_reverse, inserted_rows_elem in Hx1
        as (i & item & Hi & _ & _); [|done].
      apply rows_desc_elem in Hx2.
      rewrite Forall_forall in H3.
      apply list_elem_of_lookup_2, H3 in Hi as (_ & _ & Hi).
      apply Hi. eauto.
    + by apply inserted_rows_sorted.
    + apply rows_desc_sorted.
  - intros k row. rewrite elem_of_app, elem_of_reverse, rows_desc_elem.
    rewrite inserted_rows_elem by done. split.
    + intros [(i & item & Hi & Hitem & ->)|Hk].
      * destruct (Hrows i k Hi) as (_ & item' & Hitem' & Hrow).
        rewrite Hitem in Hitem'. injection Hitem' as <-. done.
      * by apply Hold.
    + intros Hk. destruct (H5 k row Hk) as [Ho|Hin]; [by right|].
      left. apply list_elem_of_lookup in Hin as [i Hi].
      destruct (Hrows i k Hi) as (_ & item & Hitem & Hrow).
      exists i, item. repeat split; try done.
      unfold inserted_row. congruence.
Qed.

(** The same for the listing of one note that no row named before. *)
Lemma insert_rows_desc_note items n d :
  (forall k row, action_items d !! k = Some row ->
                 item_note_id row ≠ Some n) ->
  let r := db.insert_action_items now items (Some n) d in
  rows_desc (filter (fun kv : Z * action_item_row =>
                       item_note_id kv.2 = Some n) (action_items r.2))
  = reverse (inserted_rows now (Some n) r.1 items).
Proof.
  intros Hnone r.
  destruct (insert_action_items_spec now items (Some n) d)
    as (Hlen & Hnd & Hrows & Hold & _). fold r in Hlen, Hnd, Hrows, Hold.
  destruct (insert_fold_ids now (Some n) items [] d)
    as (new & H1 & H2 & H3 & H4 & H5 & _).
  simpl in H1. change (foldl _ _ items) with r in H1, H3, H4, H5.
  rewrite <- H1 in H2, H3, H5. clear new H1.
  apply rows_desc_unique.
  - by apply inserted_rows_sorted.
  - intros k row. rewrite elem_of_reverse, map_lookup_filter_Some.
    rewrite inserted_rows_elem by done. simpl. split.
    + intros (i & item & Hi & Hitem & ->). split; [|done].
      destruct (Hrows i k Hi) as (_ & item' & Hitem' & Hrow).
      rewrite Hitem in Hitem'. injection Hitem' as <-. done.
    + intros [Hk Hn]. destruct (H5 k row Hk) as [Ho|Hin].
      * by apply Hnone in Ho.
      * apply list_elem_of_lookup in Hin as [i Hi].
        destruct (Hrows i k Hi) as (_ & item & Hitem & Hrow).
        exists i, item. repeat split; try done.
        unfold inserted_row. congruence.
Qed.
End ListingAfterInsert.


Lemma extract_db (tables : UnicodeTables) now payload d :
  let text := strip (extract_text payload) in
  let items := extract_action_items text in
  (router.extract now payload d).2
  = if extract_save_note payload then
      (db.insert_action_items now items
         (Some (db.insert_note now text d).1) (db.insert_note now text d).2).2
    else (db.insert_action_items now items None d).2.
Proof.
  intros text items. unfold router.extract. fold text. fold items.
  destruct (extract_save_note payload).
  - destruct (db.insert_note now text d) as [rowid d1]. simpl.
    by destruct (db.insert_action_items now items (Some rowid) d1).
  - by destruct (db.insert_action_items now items None d).
Qed.

Lemma create_note_db now payload d :
  (notes_router.create_note now payload d).2
  = (db.insert_note now (strip (create_content payload)) d).2.
Proof.
  unfold notes_router.create_note.
  by destruct (db.insert_note now (strip (create_content payload)) d).
Qed.

Lemma mark_done_router_db i payload d :
  (router.mark_done i payload d).2
  = (db.mark_action_item_done i (request_done payload) d).2.
Proof.
  unfold router.mark_done.
  destruct (db.mark_action_item_done i (request_done payload) d) as [ok d'].
  by destruct ok.
Qed.

Lemma rows_desc_insert_above {A} (table : gmap Z A) k row :
  (forall k', is_Some (table !! k') -> k' < k) ->
  rows_desc (<[k := row]> table) = (k, row) :: rows_desc table.
Proof.
  intros Habove. apply rows_desc_unique.
  - constructor; [apply rows_desc_sorted|].
    apply Forall_forall. intros [k' row'] Hin. simpl.
    apply rows_desc_elem in Hin. apply Habove. eauto.
  - intros k' row'. rewrite elem_of_cons, rows_desc_elem, lookup_insert_Some.
    split.
    + intros [[= -> ->]|Hin]; [by left|]. right. split; [|done].
      intros ->. assert (k' < k') by (apply Habove; eauto). lia.
    + intros [[-> ->]|[_ Hin]]; [by left|by right].
Qed.

Lemma set_done_same row : set_done (item_done row) row = row.
Proof. by destruct row. Qed.

Lemma step_keeps d d' :
  api_step d d' ->
  (forall k row, db.get_note k d = Some row -> db.get_note k d' = Some row)
  /\ (forall k row,
        db.get_action_item k d = Some row ->
        exists flag, db.get_action_item k d' = Some (set_done flag row)).
Proof.
  unfold db.get_note, db.get_action_item. intros Hstep. destruct Hstep.
  - rewrite create_note_db. unfold db.insert_note. simpl. split.
    + intros k row Hk. rewrite lookup_insert_ne; [done|].
      intros <-. by rewrite next_rowid_fresh in Hk.
    + intros k row Hk. exists (item_done row). by rewrite set_done_same.
  - rewrite extract_db.
    set (text := strip (extract_text payload)).
    set (items := extract_action_items text).
    destruct (extract_save_note payload).
    + destruct (insert_action_items_spec now items
                  (Some (db.insert_note now text d).1)
                  (db.insert_note now text d).2) as (_ & _ & _ & Hold & Hn).
      split.
      * intros k row Hk. rewrite Hn. unfold db.insert_note. simpl.
        rewrite lookup_insert_ne; [done|].
        intros <-. by rewrite next_rowid_fresh in Hk.
      * intros k row Hk. exists (item_done row). rewrite set_done_same.
        by apply Hold.
    + destruct (insert_action_items_spec now items None d)
        as (_ & _ & _ & Hold & Hn).
      split.
      * intros k row Hk. by rewrite Hn.
      * intros k row Hk. exists (item_done row). rewrite set_done_same.
        by apply Hold.
  - rewrite mark_done_router_db. simpl. split; [done|].
    intros k row Hk. destruct (decide (k = action_item_id)) as [->|Hne].
    + eexists. rewrite lookup_alter_eq, Hk. reflexivity.
    + exists (item_done row). rewrite set_done_same.
      by rewrite lookup_alter_ne.
Qed.

Lemma detail_of_inserted now note_id ids : forall items,
  map detail_of (inserted_rows now note_id ids items)
  = map (entry_of now note_id)
      (map (fun p : Z * str =>
              {| response_id := p.1; response_text := p.2 |})
           (zip ids items)).
Proof.
  unfold inserted_rows.
  induction ids as [|k ids IH]; intros [|item items]; simpl; try done.
  by rewrite IH.
Qed.

Lemma extract_response (tables : UnicodeTables) now payload d :
  let text := strip (extract_text payload) in
  let items := extract_action_items text in
  let note_id :=
    if extract_save_note payload
    then Some (db.insert_note now text d).1 else None in
  let d1 :=
    if extract_save_note payload then (db.insert_note now text d).2 else d in
  let r := db.insert_action_items now items note_id d1 in
  router.extract now payload d
  = ({| response_note_id := note_id;
        response_items :=
          map (fun p : Z * str =>
                 {| response_id := p.1; response_text := p.2 |})
              (zip r.1 items) |}, r.2).
Proof.
  intros text items note_id d1 r. subst note_id d1 r.
  unfold router.extract. fold text. fold items.
  destruct (extract_save_note payload).
  - destruct (db.insert_note now text d) as [rowid d1]. simpl.
    by destruct (db.insert_action_items now items (Some rowid) d1).
  - by destruct (db.insert_action_items now items None d).
Qed.



(** ** Lemmas on the states of the database *)

Lemma insert_note_facts (now : Z -> str) (content : str)
    (d : database) :
  let r := db.insert_note now content d in
  db.get_note r.1 r.2
  = Some {| note_content := content; note_created_at := now r.1 |}
  /\ db.get_note r.1 d = None
  /\ 0 < r.1 /\ notes_seq d < r.1
  /\ (forall k, is_Some (notes d !! k) -> k < r.1)
  /\ (forall k, k ≠ r.1 -> db.get_note k r.2 = db.get_note k d)
  /\ action_items r.2 = action_items d
  /\ action_items_seq r.2 = action_items_seq d.
Proof.
  intros r. subst r. unfold db.insert_note, db.get_note. simpl.
  destruct (next_rowid_above (notes d) (notes_seq d)) as (H1 & H2 & H3).
  repeat split; try done.
  - apply lookup_insert_eq.
  - apply next_rowid_fresh.
  - intros k Hk. by rewrite lookup_insert_ne.
Qed.

Lemma consistent_fresh : db_consistent (db.init_db fresh_file).
Proof. split; intros k row H; simpl in H; by rewrite lookup_empty in H. Qed.

Lemma consistent_insert_note now content d :
  db_consistent d -> db_consistent (db.insert_note now content d).2.
Proof.
  intros [Hn Ha].
  destruct (insert_note_facts now content d)
    as (_ & _ & Hpos & Hseq & _).
  unfold db.insert_note in *. simpl in *. split; simpl.
  - intros k row Hk. apply lookup_insert_Some in Hk as [[<- _]|[_ Hk]].
    + lia.
    + apply Hn in Hk. lia.
  - intros k row Hk. destruct (Ha k row Hk) as (H1 & H2 & H3).
    repeat split; try done; try lia.
    intros n Hrow. apply H3 in Hrow. rewrite lookup_insert_is_Some.
    destruct (decide (next_rowid (notes d) (notes_seq d) = n)); auto.
Qed.

Lemma consistent_insert_action_items now items note_id d :
  db_consistent d ->
  (forall n, note_id = Some n -> is_Some (notes d !! n)) ->
  db_consistent (db.insert_action_items now items note_id d).2.
Proof.
  intros [Hn Ha] Hnote.
  set (r := db.insert_action_items now items note_id d).
  destruct (insert_fold now note_id items [] d)
    as (new & H1 & _ & _ & Hrows & _ & Hnotes & Hnseq).
  destruct (insert_fold_ids now note_id items [] d)
    as (new' & H1' & _ & H3 & H4 & H5 & _).
  change (foldl _ _ items) with r in *. simpl in H1, H1'.
  rewrite <- H1' in H3, H5. rewrite <- H1 in Hrows. clear new new' H1 H1'.
  split.
  - rewrite Hnotes, Hnseq. exact Hn.
  - intros k row Hk. rewrite Hnotes.
    destruct (H5 k row Hk) as [Hold|Hin].
    + destruct (Ha k row Hold) as (Hk1 & Hk2 & Hk3).
      repeat split; try done; lia.
    + rewrite Forall_forall in H3. destruct (H3 k Hin) as (Hk0 & Hk1 & _).
      apply list_elem_of_lookup in Hin as [i Hi].
      destruct (Hrows i k Hi) as (_ & item & _ & Hrow).
      rewrite Hk in Hrow. injection Hrow as ->. simpl.
      repeat split; try lia; auto.
Qed.

Lemma consistent_mark_done i done d :
  db_consistent d -> db_consistent (db.mark_action_item_done i done d).2.
Proof.
  intros [Hn Ha]. split; [exact Hn|]. simpl.
  intros k row Hk. apply lookup_alter_Some in Hk
    as [(<- & row' & Hrow & ->)|[_ Hk]].
  - destruct (Ha i row' Hrow) as (H1 & H2 & H3). simpl.
    repeat split; try done; try lia. destruct done; auto.
  - by apply Ha.
Qed.

Lemma consistent_step d d' : api_step d d' -> db_consistent d -> db_consistent d'.
Proof.
  intros Hstep Hd. destruct Hstep.
  - rewrite create_note_db. by apply consistent_insert_note.
  - rewrite extract_db. destruct (extract_save_note payload).
    + apply consistent_insert_action_items.
      * by apply consistent_insert_note.
      * intros n [= <-]. unfold db.insert_note. simpl.
        rewrite lookup_insert_eq. eauto.
    + by apply consistent_insert_action_items.
  - rewrite mark_done_router_db. by apply consistent_mark_done.
Qed.


Local Close Scope Z_scope.

(** ** Lemmas on the parts of a text *)

Local Open Scope N_scope.

Lemma part_of_refl x : part_of x x.
Proof. exists [], []. by rewrite app_nil_r. Qed.

Lemma part_of_trans x y z : part_of x y -> part_of y z -> part_of x z.
Proof.
  intros (a & b & ->) (a' & b' & ->). exists (a' ++ a), (b ++ b').
  by rewrite <- !app_assoc.
Qed.

Lemma part_of_suffix x a : part_of x (a ++ x).
Proof. exists a, []. by rewrite app_nil_r. Qed.

Lemma part_of_prefix x b : part_of x (x ++ b).
Proof. by exists [], b. Qed.

Lemma part_of_drop n s : part_of (drop n s) s.
Proof. rewrite <- (take_drop n s) at 2. apply part_of_suffix. Qed.

Lemma lstrip_part s : part_of (lstrip s) s.
Proof.
  induction s as [|c s IH]; simpl; [apply part_of_refl|].
  destruct (isspace c); [|apply part_of_refl].
  eapply part_of_trans; [exact IH|]. apply (part_of_suffix s [c]).
Qed.

Lemma part_of_rev x t : part_of x t -> part_of (rev x) (rev t).
Proof.
  intros (a & b & ->). exists (rev b), (rev a).
  by rewrite !rev_app_distr, <- app_assoc.
Qed.

Lemma strip_part s : part_of (strip s) s.
Proof.
  unfold strip, rstrip. eapply part_of_trans; [|apply lstrip_part].
  rewrite <- (rev_involutive (lstrip s)) at 2.
  apply part_of_rev, lstrip_part.
Qed.

Lemma removeprefix_part s p : part_of (removeprefix s p) s.
Proof.
  unfold removeprefix. destruct (startswith s p);
    [apply part_of_drop|apply part_of_refl].
Qed.

Lemma splitlines_from_part n : forall s cur line,
  (length s <= n)%nat ->
  line ∈ splitlines_from cur s -> part_of line (rev cur ++ s).
Proof.
  induction n as [|n IH]; intros s cur line Hn.
  - destruct s; [|simpl in Hn; lia]. simpl.
    destruct (is_empty cur); [by intros ?%not_elem_of_nil|].
    intros ->%list_elem_of_singleton. rewrite app_nil_r. apply part_of_refl.
  - destruct s as [|c s].
    { simpl. destruct (is_empty cur); [by intros ?%not_elem_of_nil|].
      intros ->%list_elem_of_singleton. rewrite app_nil_r.
      apply part_of_refl. }
    simpl in Hn. simpl splitlines_from.
    assert (Hbreak : forall rest, (length rest <= n)%nat ->
              part_of rest (c :: s) ->
              line ∈ rev cur :: splitlines_from [] rest ->
              part_of line (rev cur ++ c :: s)).
    { intros rest Hlen Hrest Hin. apply elem_of_cons in Hin as [->|Hin].
      - apply part_of_prefix.
      - apply IH in Hin; [|done]. simpl in Hin.
        eapply part_of_trans; [exact Hin|].
        eapply part_of_trans; [exact Hrest|]. apply part_of_suffix. }
    destruct (c =? CR).
    + destruct s as [|c' s'].
      * apply Hbreak; [simpl; lia|apply (part_of_suffix [] [c])].
      * destruct (c' =? LF).
        -- apply Hbreak; [simpl in *; lia|apply (part_of_suffix s' [c; c'])].
        -- apply Hbreak; [simpl in *; lia|apply (part_of_suffix (c' :: s') [c])].
    + destruct (is_linebreak c).
      * apply Hbreak; [lia|apply (part_of_suffix s [c])].
      * intros Hin. apply IH in Hin; [|lia]. simpl in Hin.
        by rewrite <- app_assoc in Hin.
Qed.

Lemma splitlines_part text line :
  line ∈ splitlines text -> part_of line text.
Proof. apply (splitlines_from_part (length text) text []). lia. Qed.

Lemma sentence_pieces_part s : forall pos cur piece,
  (pos = InBoundary -> cur = []) ->
  piece ∈ sentence_pieces pos cur s -> part_of piece (rev cur ++ s).
Proof.
  induction s as [|c s IH]; intros pos cur piece Hpos; simpl.
  - intros ->%list_elem_of_singleton. rewrite app_nil_r. apply part_of_refl.
  - assert (Hnext : piece ∈ sentence_pieces (After c) (c :: cur) s ->
                    part_of piece (rev cur ++ c :: s)).
    { intros Hin. apply IH in Hin; [|discriminate]. simpl in Hin.
      by rewrite <- app_assoc in Hin. }
    destruct pos as [|p|]; [done| |].
    + destruct (is_terminator p && isspace c); [|done].
      intros [->|Hin]%elem_of_cons; [apply part_of_prefix|].
      apply IH in Hin; [|done]. simpl in Hin.
      eapply part_of_trans; [exact Hin|].
      replace (rev cur ++ c :: s) with ((rev cur ++ [c]) ++ s)
        by (by rewrite <- app_assoc).
      apply part_of_suffix.
    + rewrite (Hpos eq_refl) in *. simpl.
      destruct (isspace c); [|done].
      intros Hin. apply IH in Hin; [|done]. simpl in Hin.
      eapply part_of_trans; [exact Hin|]. apply (part_of_suffix s [c]).
Qed.

Section Parts.
Context {tables : UnicodeTables}.

Lemma bullet_not_inside c s :
  match_here BULLET_PREFIX_PATTERN (Some c) s = None.
Proof. reflexivity. Qed.

Lemma segments_bullet_rest s : forall c cur,
  segments BULLET_PREFIX_PATTERN 0 (Some c) cur s = [Text (rev cur ++ s)].
Proof.
  induction s as [|x s IH]; intros c cur; simpl.
  - by rewrite app_nil_r.
  - rewrite IH. simpl. by rewrite <- app_assoc.
Qed.

Lemma segments_bullet_skip s : forall n c,
  segments BULLET_PREFIX_PATTERN n (Some c) [] s = [Text (drop n s)].
Proof.
  induction s as [|x s IH]; intros n c.
  - by destruct n.
  - destruct n as [|n].
    + apply (segments_bullet_rest (x :: s) c []).
    + simpl. apply IH.
Qed.

Lemma re_sub_bullet_part line :
  part_of (re_sub BULLET_PREFIX_PATTERN [] line) line.
Proof.
  unfold re_sub. destruct line as [|c s]; [apply part_of_refl|].
  rewrite segments_cons.
  destruct (match_here BULLET_PREFIX_PATTERN None (c :: s)) as [rest|].
  - destruct (length (c :: s) - length rest)%nat as [|n].
    + rewrite segments_bullet_rest. simpl. rewrite app_nil_r.
      apply part_of_refl.
    + rewrite segments_bullet_skip. simpl. rewrite app_nil_r.
      apply (part_of_drop (S n) (c :: s)).
  - rewrite segments_bullet_rest. simpl. rewrite app_nil_r.
    apply part_of_refl.
Qed.

Lemma cleaned_line_part line : part_of (cleaned_line line) line.
Proof.
  unfold cleaned_line, after_bullet.
  repeat first
    [ apply re_sub_bullet_part
    | (eapply part_of_trans; [apply strip_part|])
    | (eapply part_of_trans; [apply removeprefix_part|]) ].
Qed.

Lemma extracted_items_part text x :
  x ∈ extracted_items text -> part_of x text.
Proof.
  rewrite extracted_items_cases. destruct (is_empty (line_pass text)).
  - intros [_ Hx]%list_elem_of_filter. unfold sentences in Hx.
    apply list_elem_of_filter in Hx as [_ Hx].
    apply list_elem_of_In, in_map_iff in Hx as (piece & <- & Hin).
    apply list_elem_of_In in Hin. rewrite re_split_sentences in Hin.
    apply (sentence_pieces_part _ AtStart []) in Hin; [|discriminate].
    eapply part_of_trans; [apply strip_part|].
    eapply part_of_trans; [exact Hin|]. apply strip_part.
  - rewrite line_pass_eq, list_elem_of_In, in_concat.
    intros (l & Hl & Hx). apply in_map_iff in Hl as (raw & <- & Hraw).
    unfold line_items in Hx. destruct (negb _ && _); [|done].
    destruct Hx as [<-|[]].
    eapply part_of_trans; [apply cleaned_line_part|].
    eapply part_of_trans; [apply strip_part|].
    by apply splitlines_part, list_elem_of_In.
Qed.

Lemma blank_part x t : part_of x t -> blank t = true -> blank x = true.
Proof.
  intros (a & b & ->). unfold blank. rewrite !forallb_app.
  intros H. apply andb_true_iff in H as [_ H].
  by apply andb_true_iff in H as [H _].
Qed.

Lemma concat_map_nil {A B} (g : A -> list B) (l : list A) :
  (forall x, x ∈ l -> g x = []) -> concat (map g l) = [].
Proof.
  induction l as [|x l IH]; intros H; simpl; [done|].
  rewrite H by apply list_elem_of_here. apply IH.
  intros y Hy. apply H. by apply list_elem_of_further.
Qed.

Lemma extract_blank (text : str) :
  blank text = true -> extract_action_items text = [].
Proof.
  intros Hb. rewrite extract_action_items_eq.
  assert (extracted_items text = []) as ->; [|done].
  assert (Hlines : line_pass text = []).
  { rewrite line_pass_eq. apply concat_map_nil. intros raw Hraw.
    apply splitlines_part in Hraw.
    apply (blank_part _ _ Hraw), strip_nil_blank in Hb.
    unfold line_items. by rewrite Hb. }
  rewrite extracted_items_cases, Hlines. simpl.
  unfold sentences. apply strip_nil_blank in Hb. by rewrite Hb.
Qed.
End Parts.

Local Close Scope N_scope.

(** ** Lemmas on the shapes of a decoded response *)

Section ModelShapes.
Context {rt : Runtime}.

Lemma llm_try_decoded text model content v :
  chat (llm_request text model) = Returns (Some content) ->
  json_loads (strip content) = Returns v ->
  llm_try text model = normalise v.
Proof. unfold llm_try. intros ->. simpl. by intros ->. Qed.

Lemma filter_nonempty_strings (ss : list str) :
  map py_str (filter (fun item => truthy item = true) (map PyStr ss))
  = filter (fun s => s ≠ []) ss.
Proof.
  induction ss as [|s ss IH]; [done|]. simpl.
  destruct s as [|c s].
  - rewrite filter_cons_False by (simpl; discriminate).
    rewrite filter_cons_False by (intros H; by apply H). done.
  - rewrite !filter_cons_True by done. simpl. by rewrite IH.
Qed.

Lemma filter_all_nonempty (ss : list str) :
  Forall (fun s => s ≠ []) ss -> filter (fun s => s ≠ []) ss = ss.
Proof.
  induction 1 as [|s ss Hs _ IH]; [done|].
  rewrite filter_cons_True by done. by rewrite IH.
Qed.

End ModelShapes.

Lemma order_example_items :
  @extract_action_items latin1_tables order_example
  = [u "Set up database"; u "implement API extract endpoint";
     u "Write tests"].
Proof. vm_compute. reflexivity. Qed.

(** ** The storage: further statements *)

Local Open Scope Z_scope.






(** X5: the listing of the notes has its ids in strictly descending
    order, is as long as the table, and holds exactly the answers
    [get_single_note] gives. *)
Theorem list_all_notes_entries (d : database) :
  let l := listed_notes (notes_router.list_all_notes d) in
  StronglySorted (fun a b => note_response_id b < note_response_id a) l
  /\ (forall e,
        e ∈ l <->
        notes_router.get_single_note (note_response_id e) d = Body e)
  /\ length l = size (notes d).
Proof.
  intros l. subst l.
  change (listed_notes (notes_router.list_all_notes d))
    with (note_response_of <$> rows_desc (notes d)).
  split; [|split].
  - eapply StronglySorted_fmap; [|apply rows_desc_sorted].
    by intros [k1 r1] [k2 r2].
  - intros e. rewrite list_elem_of_fmap.
    unfold notes_router.get_single_note, db.get_note. split.
    + intros ([k row] & -> & Hin). apply rows_desc_elem in Hin.
      simpl. by rewrite Hin.
    + destruct (notes d !! note_response_id e) as [row|] eqn:E;
        [|discriminate].
      intros [= <-]. exists (note_response_id e, row).
      split; [done|]. by apply rows_desc_elem.
  - rewrite length_fmap. apply rows_desc_length.
Qed.

(** X6: every state the endpoints reach from a fresh file is consistent:
    ids are positive and at most the sequence of their table, every flag
    is 0 or 1, and every note an action item names exists, although the
    engine does not check it. *)
Theorem reachable_consistent (d : database) :
  reachable d -> db_consistent d.
Proof.
  induction 1 as [|d d' _ IH Hstep].
  - apply consistent_fresh.
  - by apply (consistent_step d d').
Qed.

Lemma reachable_consistent_witness :
  reachable (notes_router.create_note (fun _ => u "t")
               {| create_content := u "Plan sprint" |}
               (db.init_db fresh_file)).2
  /\ db_consistent
       (notes_router.create_note (fun _ => u "t")
          {| create_content := u "Plan sprint" |}
          (db.init_db fresh_file)).2.
Proof.
  assert (H : reachable
                (notes_router.create_note (fun _ => u "t")
                   {| create_content := u "Plan sprint" |}
                   (db.init_db fresh_file)).2).
  { eapply reachable_step; [apply reachable_init|].
    apply step_create_note. }
  split; [exact H|]. exact (reachable_consistent _ H).
Defined.

(** X7: [create_note] does not raise: it answers the new note, with the
    trimmed content (empty for a blank one) and a new positive id;
    [get_single_note] answered 404 for that id before and answers the
    same note after, and the listing of the notes is the new note
    followed by the listing before.  The action items are untouched. *)
Theorem create_note_round_trip (now : Z -> str) (payload : NoteCreate)
    (d : database) :
  let r := notes_router.create_note now payload d in
  exists created,
    r.1 = Returns created
    /\ note_response_content created = strip (create_content payload)
    /\ note_response_created_at created = now (note_response_id created)
    /\ 0 < note_response_id created
    /\ notes_router.get_single_note (note_response_id created) d
       = NoteNotFoundError (note_response_id created)
    /\ notes_router.get_single_note (note_response_id created) r.2
       = Body created
    /\ listed_notes (notes_router.list_all_notes r.2)
       = created :: listed_notes (notes_router.list_all_notes d)
    /\ action_items r.2 = action_items d.
Proof.
  intros r. subst r.
  destruct (insert_note_facts now (strip (create_content payload)) d)
    as (Hget & Hnew & Hpos & _ & Habove & _ & Hitems & _).
  unfold notes_router.create_note.
  unfold db.insert_note in *. simpl in *.
  set (rowid := next_rowid (notes d) (notes_seq d)) in *.
  unfold db.get_note in *. simpl in *. rewrite Hget.
  eexists. split; [reflexivity|]. simpl. repeat split; try done.
  - unfold notes_router.get_single_note, db.get_note. by rewrite Hnew.
  - unfold notes_router.get_single_note, db.get_note. simpl.
    by rewrite Hget.
  - unfold notes_router.list_all_notes, db.list_notes. simpl.
    by rewrite rows_desc_insert_above.
Qed.

(** X8: whatever the endpoints do next, a stored note stays as it is, so
    [get_single_note] keeps its answer, and a stored action item keeps
    its text, its note and its date: only its flag can change. *)
Theorem stored_rows_persist (d d' : database) :
  rtc api_step d d' ->
  (forall k row, db.get_note k d = Some row -> db.get_note k d' = Some row)
  /\ (forall k body,
        notes_router.get_single_note k d = Body body ->
        notes_router.get_single_note k d' = Body body)
  /\ (forall k row,
        db.get_action_item k d = Some row ->
        exists row',
          db.get_action_item k d' = Some row'
          /\ item_text row' = item_text row
          /\ item_note_id row' = item_note_id row
          /\ item_created_at row' = item_created_at row).
Proof.
  intros Hsteps.
  assert (H : (forall k row, db.get_note k d = Some row ->
                             db.get_note k d' = Some row)
              /\ (forall k row, db.get_action_item k d = Some row ->
                    exists flag,
                      db.get_action_item k d' = Some (set_done flag row))).
  { induction Hsteps as [d|d d1 d2 Hstep _ [IH1 IH2]].
    - split; [done|]. intros k row Hk. exists (item_done row).
      by rewrite set_done_same.
    - destruct (step_keeps d d1 Hstep) as [H1 H2]. split.
      + intros k row Hk. by apply IH1, H1.
      + intros k row Hk. destruct (H2 k row Hk) as [flag Hflag].
        destruct (IH2 k _ Hflag) as [flag' Hflag'].
        exists flag'. by rewrite Hflag'. }
  destruct H as [H1 H2]. split; [exact H1|]. split.
  - intros k body. unfold notes_router.get_single_note.
    destruct (db.get_note k d) as [row|] eqn:E; [|discriminate].
    by rewrite (H1 k row E).
  - intros k row Hk. destruct (H2 k row Hk) as [flag Hflag].
    eexists. split; [exact Hflag|]. done.
Qed.

Lemma stored_rows_persist_witness :
  let d := (notes_router.create_note (fun _ => u "t")
              {| create_content := u "Plan sprint" |}
              (db.init_db fresh_file)).2 in
  let d' := (router.mark_done 7 {| request_done := true |} d).2 in
  rtc api_step d d'
  /\ db.get_note 1 d'
     = Some {| note_content := u "Plan sprint"; note_created_at := u "t" |}.
Proof.
  intros d d'.
  assert (H : rtc api_step d d').
  { apply rtc_once. apply step_mark_done. }
  split; [exact H|].
  exact (proj1 (stored_rows_persist d d' H) 1 _ eq_refl).
Defined.

(** X9: after the extract endpoint, the listing of all action items is
    the items just answered, the last first, not done, followed by the
    listing before.  Without [save_note] no note is written; with it the
    text, trimmed, is stored as a new note, and in a consistent database
    the listing of that note is exactly the items just answered. *)
Theorem extract_then_list (tables : UnicodeTables) (now : Z -> str)
    (payload : ExtractRequest) (d : database) :
  let r := router.extract now payload d in
  let entries :=
    map (entry_of now (response_note_id r.1)) (response_items r.1) in
  router.list_all None r.2 = reverse entries ++ router.list_all None d
  /\ (extract_save_note payload = false ->
      response_note_id r.1 = None /\ notes r.2 = notes d)
  /\ (extract_save_note payload = true ->
      exists n,
        response_note_id r.1 = Some n
        /\ db.get_note n d = None
        /\ db.get_note n r.2
           = Some {| note_content := strip (extract_text payload);
                     note_created_at := now n |}
        /\ (db_consistent d ->
            router.list_all (Some n) r.2 = reverse entries)).
Proof.
  intros r entries. subst r entries. rewrite extract_response.
  cbv zeta.
  set (text := strip (extract_text payload)).
  set (items := extract_action_items text).
  destruct (extract_save_note payload) eqn:Esave;
    cbn [fst snd response_note_id response_items].
  - destruct (insert_note_facts now text d)
      as (Hget & Hnew & _ & _ & _ & _ & Hitems & _).
    set (n := (db.insert_note now text d).1) in *.
    set (d1 := (db.insert_note now text d).2) in *.
    destruct (insert_action_items_spec now items (Some n) d1)
      as (_ & _ & _ & _ & Hnotes).
    split; [|split; [done|]].
    + change (router.list_all None ?x)
        with (map detail_of (rows_desc (action_items x))).
      rewrite insert_rows_desc, map_app, <- Hitems.
      f_equal. change (map ?f ?l) with (f <$> l).
      rewrite fmap_reverse. f_equal. apply detail_of_inserted.
    + intros _. exists n. split; [done|]. split; [done|]. split.
      * unfold db.get_note in *. by rewrite Hnotes.
      * intros [Hn Ha].
        change (router.list_all (Some n) ?x)
          with (map detail_of
                  (rows_desc (filter (fun kv : Z * action_item_row =>
                     item_note_id kv.2 = Some n) (action_items x)))).
        rewrite insert_rows_desc_note.
        -- change (map ?f ?l) with (f <$> l).
           rewrite fmap_reverse. f_equal. apply detail_of_inserted.
        -- intros k row Hk Hrow. rewrite Hitems in Hk.
           destruct (Ha k row Hk) as (_ & _ & Hex).
           apply Hex in Hrow as [x Hx]. unfold db.get_note in Hnew.
           congruence.
  - destruct (insert_action_items_spec now items None d)
      as (_ & _ & _ & _ & Hnotes).
    split; [|split; [done|discriminate]].
    change (router.list_all None ?x)
      with (map detail_of (rows_desc (action_items x))).
    rewrite insert_rows_desc, map_app.
    f_equal. change (map ?f ?l) with (f <$> l).
    rewrite fmap_reverse. f_equal. apply detail_of_inserted.
Qed.

Lemma extract_then_list_witness :
  let payload :=
    {| extract_text := order_example; extract_save_note := true |} in
  let r := @router.extract latin1_tables (fun _ => u "t") payload
             (db.init_db fresh_file) in
  extract_save_note payload = true
  /\ db_consistent (db.init_db fresh_file)
  /\ map detail_text (router.list_all (Some 1) r.2)
     = [u "Write tests"; u "implement API extract endpoint";
        u "Set up database"].
Proof.
  intros payload r.
  assert (H1 : extract_save_note payload = true) by reflexivity.
  assert (H2 : db_consistent (db.init_db fresh_file))
    by apply consistent_fresh.
  split; [exact H1|]. split; [exact H2|].
  destruct (proj2 (proj2 (extract_then_list latin1_tables (fun _ => u "t")
                            payload (db.init_db fresh_file))) H1)
    as (n & Hn & _ & _ & Hlist).
  assert (n = 1) as -> by (vm_compute in Hn; congruence).
  fold r in Hlist. rewrite (Hlist H2). vm_compute. reflexivity.
Defined.


Local Close Scope Z_scope.

(** ** The extractors: further statements *)

(** X11: every item [extract_action_items] returns occurs in the text as
    it stands: the extractor selects and trims, it writes nothing of its
    own. *)
Theorem items_occur_in_text (tables : UnicodeTables) (text : str) :
  forall x, x ∈ extract_action_items text -> contains x text = true.
Proof.
  intros x Hx. apply contains_spec.
  rewrite extract_action_items_eq in Hx. unfold first_occurrences in Hx.
  apply first_occurrences_fresh in Hx as [_ Hx].
  by apply extracted_items_part.
Qed.

Lemma items_occur_in_text_witness :
  u "Write tests" ∈ @extract_action_items latin1_tables order_example
  /\ contains (u "Write tests") order_example = true.
Proof.
  assert (H : u "Write tests"
              ∈ @extract_action_items latin1_tables order_example).
  { rewrite order_example_items.
    do 2 apply list_elem_of_further. apply list_elem_of_here. }
  split; [exact H|].
  exact (items_occur_in_text latin1_tables order_example _ H).
Defined.

(** X12: a text that is empty or made of whitespace only has no items. *)
Theorem blank_text_no_items (tables : UnicodeTables) (text : str) :
  blank text = true -> extract_action_items text = [].
Proof. apply extract_blank. Qed.

Lemma blank_text_no_items_witness :
  blank [LF; 0x20%N; 0x09%N] = true
  /\ @extract_action_items latin1_tables [LF; 0x20%N; 0x09%N] = [].
Proof.
  assert (H : blank [LF; 0x20%N; 0x09%N] = true) by reflexivity.
  split; [exact H|].
  exact (blank_text_no_items latin1_tables _ H).
Defined.

(** X13: the extract endpoint on a payload of whitespace only answers no
    item and writes no action item; asked to save the note, it stores a
    note of empty content. *)
Theorem extract_blank_payload (tables : UnicodeTables) (now : Z -> str)
    (payload : ExtractRequest) (d : database) :
  blank (extract_text payload) = true ->
  let r := router.extract now payload d in
  response_items r.1 = []
  /\ action_items r.2 = action_items d
  /\ (extract_save_note payload = true ->
      exists n,
        response_note_id r.1 = Some n
        /\ db.get_note n r.2
           = Some {| note_content := []; note_created_at := now n |}).
Proof.
  intros Hb r. subst r. rewrite extract_response. cbv zeta.
  assert (Hstrip : strip (extract_text payload) = [])
    by (by apply strip_nil_blank).
  rewrite Hstrip.
  assert (Hnone : extract_action_items [] = [])
    by (by apply extract_blank).
  rewrite Hnone.
  destruct (extract_save_note payload);
    cbn [fst snd response_note_id response_items].
  - repeat split; try done. intros _. eexists. split; [reflexivity|].
    unfold db.get_note. simpl. apply lookup_insert_eq.
  - repeat split; try done.
Qed.

Lemma extract_blank_payload_witness :
  let payload :=
    {| extract_text := u "   "; extract_save_note := true |} in
  blank (extract_text payload) = true
  /\ response_items
       (@router.extract latin1_tables (fun _ => u "t") payload
          (db.init_db fresh_file)).1 = [].
Proof.
  intros payload.
  assert (H : blank (extract_text payload) = true) by reflexivity.
  split; [exact H|].
  exact (proj1 (extract_blank_payload latin1_tables (fun _ => u "t")
                  payload (db.init_db fresh_file) H)).
Defined.

(** X14: when the decoder returns an array, the extractor returns
    [str(item)] of its true elements, in order, and prints nothing: never
    more items than elements; of an array of strings it returns the
    non-empty ones, and the whole array when none is empty. *)
Theorem array_of_strings_passes (rt : Runtime) (text model content : str)
    (l : list pyval) :
  blank text = false ->
  chat (llm_request text model) = Returns (Some content) ->
  json_loads (strip content) = Returns (PyList l) ->
  let run := extract_action_items_llm text model in
  run_result run
  = Returns (map py_str (filter (fun item => truthy item = true) l))
  /\ run_printed run = []
  /\ (forall items, run_result run = Returns items ->
        (length items <= length l)%nat)
  /\ (forall ss, l = map PyStr ss ->
        run_result run = Returns (filter (fun s => s ≠ []) ss))
  /\ (forall ss, l = map PyStr ss -> Forall (fun s => s ≠ []) ss ->
        run_result run = Returns ss).
Proof.
  intros Hb Hchat Hjson run. subst run.
  assert (Htry := llm_try_decoded _ _ _ _ Hchat Hjson).
  assert (Hres : run_result (extract_action_items_llm text model)
            = Returns (map py_str
                         (filter (fun item => truthy item = true) l))).
  { by rewrite run_result_eq, Hb, Htry. }
  split; [exact Hres|]. split; [by rewrite run_printed_eq, Hb, Htry|].
  split; [|split].
  - intros items. rewrite Hres. intros [= <-].
    rewrite length_map. apply length_filter.
  - intros ss ->. by rewrite Hres, filter_nonempty_strings.
  - intros ss -> Hall. rewrite Hres, filter_nonempty_strings.
    by rewrite filter_all_nonempty.
Qed.

Lemma array_of_strings_passes_witness :
  blank (u "x") = false
  /\ @chat (scripted_runtime space_item_example)
       (llm_request (u "x") (u "m"))
     = Returns (Some space_item_example)
  /\ @json_loads (scripted_runtime space_item_example)
       (strip space_item_example)
     = Returns (PyList [PyStr (u " ")])
  /\ run_result
       (@extract_action_items_llm (scripted_runtime space_item_example)
          (u "x") (u "m"))
     = Returns [u " "].
Proof.
  assert (H0 : blank (u "x") = false) by reflexivity.
  assert (H1 : @chat (scripted_runtime space_item_example)
                 (llm_request (u "x") (u "m"))
               = Returns (Some space_item_example)) by reflexivity.
  assert (H2 : @json_loads (scripted_runtime space_item_example)
                 (strip space_item_example)
               = Returns (PyList [PyStr (u " ")]))
    by (vm_compute; reflexivity).
  split; [exact H0|]. split; [exact H1|]. split; [exact H2|].
  exact (proj1 (array_of_strings_passes
                  (scripted_runtime space_item_example) (u "x") (u "m")
                  space_item_example _ H0 H1 H2)).
Defined.

(** X15: when the decoder returns a value that is neither an array nor an
    object (a string, a number, a boolean, [null]), the extractor returns
    the empty list and prints nothing. *)
Theorem other_shapes_give_nothing (rt : Runtime)
    (text model content : str) (v : pyval) :
  chat (llm_request text model) = Returns (Some content) ->
  json_loads (strip content) = Returns v ->
  (forall l, v ≠ PyList l) -> (forall d, v ≠ PyDict d) ->
  let run := extract_action_items_llm text model in
  run_result run = Returns [] /\ run_printed run = [].
Proof.
  intros Hchat Hjson Hl Hd run. subst run.
  assert (Htry := llm_try_decoded _ _ _ _ Hchat Hjson).
  rewrite run_result_eq, run_printed_eq, Htry.
  destruct v; try (by destruct (blank text)).
  - by destruct (Hl l).
  - by destruct (Hd d).
Qed.

Lemma other_shapes_give_nothing_witness :
  @chat (scripted_runtime (u "42")) (llm_request (u "x") (u "m"))
  = Returns (Some (u "42"))
  /\ @json_loads (scripted_runtime (u "42")) (strip (u "42"))
     = Returns (PyInt 42)
  /\ run_result
       (@extract_action_items_llm (scripted_runtime (u "42"))
          (u "x") (u "m"))
     = Returns [].
Proof.
  assert (H1 : @chat (scripted_runtime (u "42"))
                 (llm_request (u "x") (u "m"))
               = Returns (Some (u "42"))) by reflexivity.
  assert (H2 : @json_loads (scripted_runtime (u "42")) (strip (u "42"))
               = Returns (PyInt 42)) by (vm_compute; reflexivity).
  split; [exact H1|]. split; [exact H2|].
  refine (proj1 (other_shapes_give_nothing (scripted_runtime (u "42"))
                   (u "x") (u "m") (u "42") (PyInt 42) H1 H2 _ _));
    intros; discriminate.
Defined.

(** X16: when the value the keys select is not an array, it is iterated
    as Python iterates it: a string gives its characters one by one, an
    object gives its non-empty keys, both in silence; a number or [true]
    cannot be iterated, and the extractor returns the empty list and
    prints the [TypeError]. *)
Theorem keyed_value_not_a_list (rt : Runtime) (text model content : str)
    (d : list (str * pyval)) (key : str) :
  blank text = false ->
  chat (llm_request text model) = Returns (Some content) ->
  json_loads (strip content) = Returns (PyDict d) ->
  first_key d = Some key ->
  let run := extract_action_items_llm text model in
  (forall s, dict_get d key = PyStr s ->
     run_result run = Returns (map (fun c => [c]) s)
     /\ run_printed run = [])
  /\ (forall d', dict_get d key = PyDict d' ->
        run_result run = Returns (filter (fun k => k ≠ []) (map fst d'))
        /\ run_printed run = [])
  /\ ((forall l, dict_get d key ≠ PyList l) ->
      (forall s, dict_get d key ≠ PyStr s) ->
      (forall d', dict_get d key ≠ PyDict d') ->
      run_result run = Returns []
      /\ run_printed run
         = [u "Error in extract_action_items_llm: '"
              ++ type_name (dict_get d key)
              ++ u "' object is not iterable"]).
Proof.
  intros Hb Hchat Hjson Hkey run. subst run.
  assert (Htry : llm_try text model = str_items (dict_get d key)).
  { rewrite (llm_try_decoded _ _ _ _ Hchat Hjson). simpl.
    by rewrite dict_items_first_key, Hkey. }
  rewrite run_result_eq, run_printed_eq, Hb, Htry.
  split; [|split].
  - intros s ->. unfold str_items. cbn [py_iter mbind outcome_bind].
    split; [|done]. f_equal.
    replace (map (fun c => PyStr [c]) s)
      with (map PyStr (map (fun c => [c]) s)) by (by rewrite map_map).
    rewrite filter_nonempty_strings. apply filter_all_nonempty.
    apply Forall_forall. intros x Hx.
    apply list_elem_of_In, in_map_iff in Hx as (c & <- & _). done.
  - intros d' ->. unfold str_items. cbn [py_iter mbind outcome_bind].
    split; [|done]. f_equal.
    rewrite <- filter_nonempty_strings. by rewrite map_map.
  - intros Hl Hs Hd'. unfold str_items.
    destruct (dict_get d key) as [|b|z|f|s|l|d0];
      first [by edestruct Hs | by edestruct Hl | by edestruct Hd' | done].
Qed.

Lemma keyed_value_not_a_list_witness :
  blank (u "x") = false
  /\ @chat (scripted_runtime string_value_example)
       (llm_request (u "x") (u "m"))
     = Returns (Some string_value_example)
  /\ @json_loads (scripted_runtime string_value_example)
       (strip string_value_example)
     = Returns (PyDict [(u "items", PyStr (u "ab"))])
  /\ first_key [(u "items", PyStr (u "ab"))] = Some (u "items")
  /\ run_result
       (@extract_action_items_llm (scripted_runtime string_value_example)
          (u "x") (u "m"))
     = Returns [u "a"; u "b"].
Proof.
  assert (H0 : blank (u "x") = false) by reflexivity.
  assert (H1 : @chat (scripted_runtime string_value_example)
                 (llm_request (u "x") (u "m"))
               = Returns (Some string_value_example)) by reflexivity.
  assert (H2 : @json_loads (scripted_runtime string_value_example)
                 (strip string_value_example)
               = Returns (PyDict [(u "items", PyStr (u "ab"))]))
    by (vm_compute; reflexivity).
  assert (H3 : first_key [(u "items", PyStr (u "ab"))] = Some (u "items"))
    by reflexivity.
  split; [exact H0|]. split; [exact H1|]. split; [exact H2|].
  split; [exact H3|].
  exact (proj1 (proj1 (keyed_value_not_a_list
                         (scripted_runtime string_value_example)
                         (u "x") (u "m") string_value_example _ _
                         H0 H1 H2 H3) (u "ab") eq_refl)).
Defined.
